(** * audio-processor: ingestion-to-metadata pipeline (main.go)

    A shallow embedding of [main.go]: the records [AudioChunk] and
    [Metadata], the [MemoryStore], the body of [TransformStage], the chunk
    construction of the two handlers, the channel protocol between handlers
    and the transformation goroutine, and the JSON shape of the responses. *)

From Stdlib Require Import ZArith Strings.Byte Ascii String DecimalString Permutation.
From stdpp Require Import gmap strings list fin_maps.

Local Open Scope Z_scope.

(** ** crypto/sha256

    [sha256.Sum256] belongs to Go's standard library; it is embedded here after
    its generic block function ([blockGeneric]) and [checkSum]. Words are
    [uint32] values, held in [Z] with the wrap-around written out. *)
Module sha256.

Definition chunk : nat := 64.

Definition u32 (x : Z) : Z := x mod 2 ^ 32.

(** [bits.RotateLeft32 x (-k)], a rotation to the right by [k]. *)
Definition rotr (k x : Z) : Z :=
  Z.lor (Z.shiftr x k) (u32 (Z.shiftl x (32 - k))).

(** [^x] on a [uint32]. *)
Definition not32 (x : Z) : Z := Z.lxor x (2 ^ 32 - 1).

(** The round constants [_K], each next to the prime it comes from: the
    first 32 bits of the fractional part of the prime's cube root. *)
Definition K_table : list (Z * Z) :=
  [
    (2, 0x428a2f98); (3, 0x71374491); (5, 0xb5c0fbcf); (7, 0xe9b5dba5);
    (11, 0x3956c25b); (13, 0x59f111f1); (17, 0x923f82a4); (19, 0xab1c5ed5);
    (23, 0xd807aa98); (29, 0x12835b01); (31, 0x243185be); (37, 0x550c7dc3);
    (41, 0x72be5d74); (43, 0x80deb1fe); (47, 0x9bdc06a7); (53, 0xc19bf174);
    (59, 0xe49b69c1); (61, 0xefbe4786); (67, 0x0fc19dc6); (71, 0x240ca1cc);
    (73, 0x2de92c6f); (79, 0x4a7484aa); (83, 0x5cb0a9dc); (89, 0x76f988da);
    (97, 0x983e5152); (101, 0xa831c66d); (103, 0xb00327c8); (107, 0xbf597fc7);
    (109, 0xc6e00bf3); (113, 0xd5a79147); (127, 0x06ca6351); (131, 0x14292967);
    (137, 0x27b70a85); (139, 0x2e1b2138); (149, 0x4d2c6dfc); (151, 0x53380d13);
    (157, 0x650a7354); (163, 0x766a0abb); (167, 0x81c2c92e); (173, 0x92722c85);
    (179, 0xa2bfe8a1); (181, 0xa81a664b); (191, 0xc24b8b70); (193, 0xc76c51a3);
    (197, 0xd192e819); (199, 0xd6990624); (211, 0xf40e3585); (223, 0x106aa070);
    (227, 0x19a4c116); (229, 0x1e376c08); (233, 0x2748774c); (239, 0x34b0bcb5);
    (241, 0x391c0cb3); (251, 0x4ed8aa4a); (257, 0x5b9cca4f); (263, 0x682e6ff3);
    (269, 0x748f82ee); (271, 0x78a5636f); (277, 0x84c87814); (281, 0x8cc70208);
    (283, 0x90befffa); (293, 0xa4506ceb); (307, 0xbef9a3f7); (311, 0xc67178f2) ].

Definition _K : list Z := K_table.*2.

(** [is_cube_root_word p k]: [k] is the first 32 fractional bits of the cube
    root of [p], for a root between 1 and 8. *)
Definition is_cube_root_word (p k : Z) : bool :=
  existsb (fun i => let r := i * 2 ^ 32 + k in
                    (r ^ 3 <=? p * 2 ^ 96) && (p * 2 ^ 96 <? (r + 1) ^ 3))
          [1; 2; 3; 4; 5; 6; 7].

Definition byteZ (b : byte) : Z := Z.of_N (Byte.to_N b).

(** [uint32(p[j])<<24 | uint32(p[j+1])<<16 | uint32(p[j+2])<<8 | uint32(p[j+3])] *)
Definition be32 (b0 b1 b2 b3 : byte) : Z :=
  Z.lor (Z.lor (Z.lor (Z.shiftl (byteZ b0) 24) (Z.shiftl (byteZ b1) 16))
               (Z.shiftl (byteZ b2) 8)) (byteZ b3).

(** The first loop of a block: [w[0..15]] read big-endian from [p]. *)
Fixpoint load (p : list byte) : list Z :=
  match p with
  | b0 :: b1 :: b2 :: b3 :: rest => be32 b0 b1 b2 b3 :: load rest
  | _ => []
  end.

Definition at_ (w : list Z) (i : nat) : Z := nth i w 0.

(** The second loop: [w[i]] for [i] from 16 to 63; [w] holds [w[0..i-1]]. *)
Fixpoint schedule (n : nat) (w : list Z) : list Z :=
  match n with
  | O => w
  | S n' =>
      let i := length w in
      let v1 := at_ w (i - 2) in
      let t1 := Z.lxor (Z.lxor (rotr 17 v1) (rotr 19 v1)) (Z.shiftr v1 10) in
      let v2 := at_ w (i - 15) in
      let t2 := Z.lxor (Z.lxor (rotr 7 v2) (rotr 18 v2)) (Z.shiftr v2 3) in
      schedule n' (w ++ [u32 (t1 + at_ w (i - 7) + t2 + at_ w (i - 16))])
  end.

Record regs := Regs { ra : Z; rb : Z; rc : Z; rd : Z; re : Z; rf : Z; rg : Z; rh : Z }.

(** One iteration of the third loop, with [k = _K[i]] and [wi = w[i]]. *)
Definition round (r : regs) (kw : Z * Z) : regs :=
  let '(Regs a b c d e f g h) := r in
  let t1 := u32 (h + Z.lxor (Z.lxor (rotr 6 e) (rotr 11 e)) (rotr 25 e)
                   + Z.lxor (Z.land e f) (Z.land (not32 e) g)
                   + fst kw + snd kw) in
  let t2 := u32 (Z.lxor (Z.lxor (rotr 2 a) (rotr 13 a)) (rotr 22 a)
                 + Z.lxor (Z.lxor (Z.land a b) (Z.land a c)) (Z.land b c)) in
  Regs (u32 (t1 + t2)) a b c (u32 (d + t1)) e f g.

(** The digest state [dig.h], eight words. *)
Definition state := regs.

Definition block1 (h : state) (p : list byte) : state :=
  let w := schedule 48 (load p) in
  let '(Regs a b c d e f g hh) := fold_left round (combine _K w) h in
  Regs (u32 (ra h + a)) (u32 (rb h + b)) (u32 (rc h + c)) (u32 (rd h + d))
       (u32 (re h + e)) (u32 (rf h + f)) (u32 (rg h + g)) (u32 (rh h + hh)).

(** [for len(p) >= chunk { ...; p = p[chunk:] }] *)
Fixpoint block (fuel : nat) (h : state) (p : list byte) : state :=
  match fuel with
  | O => h
  | S fuel' =>
      if (chunk <=? length p)%nat
      then block fuel' (block1 h (take chunk p)) (drop chunk p)
      else h
  end.

Definition byte_of_Z (z : Z) : byte :=
  match Byte.of_N (Z.to_N (z mod 256)) with Some b => b | None => x00 end.

(** [binary.BigEndian.PutUint32] / [PutUint64] *)
Definition put32 (x : Z) : list byte :=
  [ byte_of_Z (Z.shiftr x 24); byte_of_Z (Z.shiftr x 16);
    byte_of_Z (Z.shiftr x 8); byte_of_Z x ].

Definition put64 (x : Z) : list byte :=
  put32 (Z.shiftr x 32) ++ put32 x.

(** [checkSum]: a 0x80 byte, zeros up to 56 mod 64, the length in bits. *)
Definition pad (data : list byte) : list byte :=
  let len := Z.of_nat (length data) in
  let zeros := Z.to_nat ((55 - len) mod 64) in
  data ++ [x80] ++ repeat x00 zeros ++ put64 ((len * 8) mod 2 ^ 64).

Definition init_state : state :=
  Regs 0x6A09E667 0xBB67AE85 0x3C6EF372 0xA54FF53A
       0x510E527F 0x9B05688C 0x1F83D9AB 0x5BE0CD19.

Definition Sum256 (data : list byte) : list byte :=
  let p := pad data in
  let '(Regs a b c d e f g h) := block (length p) init_state p in
  put32 a ++ put32 b ++ put32 c ++ put32 d ++
  put32 e ++ put32 f ++ put32 g ++ put32 h.

End sha256.

(** ** fmt *)
Module fmt.

Definition hexdigit (n : Z) : ascii :=
  nth (Z.to_nat n)
      (list_ascii_of_string "0123456789abcdef") "0"%char.

(** [fmt.Sprintf("%x", b)] on a byte array: two lower-case digits a byte. *)
Fixpoint Sprintf_x (b : list byte) : string :=
  match b with
  | [] => EmptyString
  | x :: rest =>
      let z := sha256.byteZ x in
      String (hexdigit (z / 16)) (String (hexdigit (z mod 16)) (Sprintf_x rest))
  end.

(** [%d] on an [int]. *)
Definition Sprintf_d (n : Z) : string := NilZero.string_of_int (Z.to_int n).

(** [fmt.Sprintf("%dHz", n)] *)
Definition Sprintf_dHz (n : Z) : string := Sprintf_d n +:+ "Hz".

End fmt.

(** ** math/rand *)
Module rand.

(** [rand.Intn(n)] panics when [n <= 0] and otherwise returns a number in
    [[0, n)] chosen by the generator. [draw] is the generator's raw output
    for this call; the result is [None] for the panic. *)
Definition Intn (draw n : Z) : option Z :=
  if n <=? 0 then None else Some (draw mod n).

End rand.

(** ** Data model *)

(** A [time.Time] instant, counted in nanoseconds from Go's zero time
    (January 1 of the year 1, 00:00 UTC): 0 is the zero value of
    [time.Time], the one [IsZero] reports. *)
Definition Time := Z.

Module AudioChunk.
Record t := mk {
  ChunkID : string;
  UserID : string;
  SessionID : string;
  Timestamp : Time;
  Data : list byte
}.
End AudioChunk.
Abbreviation AudioChunk := AudioChunk.t.

Module Metadata.
Record t := mk {
  ChunkID : string;
  UserID : string;
  SessionID : string;
  Timestamp : Time;
  Checksum : string;
  FFT : string;
  Transcript : string
}.

(** The zero value of the struct, what a failed map lookup yields: empty
    strings and the zero [time.Time]. *)
Definition zero : t := mk "" "" "" 0 "" "" "".
End Metadata.
Abbreviation Metadata := Metadata.t.

#[global] Instance Metadata_eq_dec : EqDecision Metadata.
Proof. solve_decision. Defined.

(** ** MemoryStore

    [metadata] is the map behind the lock; [NewMemoryStore] allocates it, and
    every store of the program comes from [NewMemoryStore]. Each method holds
    the lock for its whole body, so a method is one atomic function of the
    map. *)
Record MemoryStore := { metadata : gmap string Metadata }.

Definition NewMemoryStore : MemoryStore := {| metadata := ∅ |}.

Definition Save (meta : Metadata) (s : MemoryStore) : MemoryStore :=
  {| metadata := <[Metadata.ChunkID meta := meta]> (metadata s) |}.

Definition Get (id : string) (s : MemoryStore) : Metadata * bool :=
  match metadata s !! id with
  | Some m => (m, true)
  | None => (Metadata.zero, false)
  end.

(** [for _, m := range s.metadata]: Go visits every entry of the map once, in
    an order it does not specify. [range_order s it] says that [it] is one of
    the orders the loop may take. *)
Definition range_order (s : MemoryStore) (it : list (string * Metadata)) : Prop :=
  it ≡ₚ map_to_list (metadata s).

(** The loop of [ListByUser] along the visiting order [it]. *)
Definition ListByUser_loop (userID : string) (it : list (string * Metadata))
  : list Metadata :=
  fold_left (fun result (e : string * Metadata) =>
               if decide (Metadata.UserID e.2 = userID)
               then result ++ [e.2] else result) it [].

(** [ListByUser s userID result]: [result] is a slice the call may return. *)
Definition ListByUser (s : MemoryStore) (userID : string)
  (result : list Metadata) : Prop :=
  ∃ it, range_order s it ∧ result = ListByUser_loop userID it.

(** The records of the store and the linear scan the spec compares with. *)
Definition records (s : MemoryStore) : list Metadata :=
  (map_to_list (metadata s)).*2.

Definition linear_scan (userID : string) (s : MemoryStore) : list Metadata :=
  filter (fun m => Metadata.UserID m = userID) (records s).

(** ** TransformStage *)

Definition ChanId := nat.

Record Job := { Chunk : AudioChunk; Result : ChanId }.

(** The branch [case job := <-in] of [TransformStage], up to the value it
    sends on [job.Result]; [None] stands for a panic. *)
Definition TransformStage_job (draw : Z) (job : Job) : option Metadata :=
  let sha := sha256.Sum256 (AudioChunk.Data (Chunk job)) in
  n ← rand.Intn draw 10000;
  Some (Metadata.mk
          (AudioChunk.ChunkID (Chunk job))
          (AudioChunk.UserID (Chunk job))
          (AudioChunk.SessionID (Chunk job))
          (AudioChunk.Timestamp (Chunk job))
          (fmt.Sprintf_x sha)
          (fmt.Sprintf_dHz n)
          "Hello World").


(** ** encoding/json on the two structs

    The encoder writes a struct as an object with one member per field, in
    declaration order, keyed by the field's [json] tag; a field tagged ["-"]
    is left out. A [time.Time] is written as its RFC 3339 text and a [[]byte]
    as base64 text; the two leaves [Time] and [Base64] stand for those
    strings, and [Str s] for the JSON string the encoder writes for [s]
    (it swaps bytes that are not valid UTF-8 for U+FFFD, so the text is not
    always enough to tell two strings apart). *)
Module json.

#[local] Set Warnings "-register-all".

Inductive Value :=
| Str (s : string)
| Bool (b : bool)
| Time (t : Z)
| Base64 (b : list byte)
| Obj (members : list (string * Value)).

Inductive GoValue :=
| GoString (s : string)
| GoTime (t : Z)
| GoBytes (b : list byte).

Record Field := { name : string; tag : string; value : GoValue }.

Definition encode (v : GoValue) : Value :=
  match v with
  | GoString s => Str s
  | GoTime t => Time t
  | GoBytes b => Base64 b
  end.

Definition Marshal (fields : list Field) : Value :=
  Obj (omap (fun f => if decide (tag f = "-") then None
                      else Some (tag f, encode (value f))) fields).

Definition keys (v : Value) : list string :=
  match v with Obj ms => ms.*1 | _ => [] end.

(** Does a [[]byte] occur in the encoded value? *)
Fixpoint has_bytes (v : Value) : bool :=
  match v with
  | Base64 _ => true
  | Obj ms =>
      (fix any (l : list (string * Value)) : bool :=
         match l with
         | [] => false
         | (_, x) :: l' => has_bytes x || any l'
         end) ms
  | _ => false
  end.

End json.

Definition AudioChunk_fields (c : AudioChunk) : list json.Field :=
  [ json.Build_Field "ChunkID" "chunk_id" (json.GoString (AudioChunk.ChunkID c));
    json.Build_Field "UserID" "user_id" (json.GoString (AudioChunk.UserID c));
    json.Build_Field "SessionID" "session_id" (json.GoString (AudioChunk.SessionID c));
    json.Build_Field "Timestamp" "timestamp" (json.GoTime (AudioChunk.Timestamp c));
    json.Build_Field "Data" "-" (json.GoBytes (AudioChunk.Data c)) ].

Definition Metadata_fields (m : Metadata) : list json.Field :=
  [ json.Build_Field "ChunkID" "chunk_id" (json.GoString (Metadata.ChunkID m));
    json.Build_Field "UserID" "user_id" (json.GoString (Metadata.UserID m));
    json.Build_Field "SessionID" "session_id" (json.GoString (Metadata.SessionID m));
    json.Build_Field "Timestamp" "timestamp" (json.GoTime (Metadata.Timestamp m));
    json.Build_Field "Checksum" "checksum" (json.GoString (Metadata.Checksum m));
    json.Build_Field "FFT" "fft" (json.GoString (Metadata.FFT m));
    json.Build_Field "Transcript" "transcript" (json.GoString (Metadata.Transcript m)) ].

(** ** The handlers *)

(** The part of an [*http.Request] the handlers look at: [r.URL.Query()]. *)
Record Request := { query : gmap string (list string) }.

(** [r.URL.Query().Get(key)]: the first value of the key, or the empty
    string. *)
Definition Query_Get (r : Request) (key : string) : string :=
  match query r !! key with
  | Some (v :: _) => v
  | _ => ""
  end.

(** The chunk of [handleUpload]; [id] is [uuid.New().String()], [now] is
    [time.Now()] and [data] the buffer after [r.Body.Read(data)]. *)
Definition handleUpload_chunk (r : Request) (id : string) (now : Time)
  (data : list byte) : AudioChunk :=
  AudioChunk.mk id (Query_Get r "user_id") (Query_Get r "session_id") now data.

(** The chunk of [handleWebSocket] for the message [msg]; [r] is the request
    that opened the connection. *)
Definition handleWebSocket_chunk (r : Request) (id : string) (now : Time)
  (msg : list byte) : AudioChunk :=
  AudioChunk.mk id "user1" "sess1" now msg.

(** [json.NewEncoder(w).Encode(meta)] *)
Definition handleUpload_response (meta : Metadata) : json.Value :=
  json.Marshal (Metadata_fields meta).

(** [conn.WriteJSON(map[string]any{...})]; the encoder sorts map keys. *)
Definition handleWebSocket_response (meta : Metadata) : json.Value :=
  json.Obj [ ("ack", json.Bool true);
             ("chunk_id", json.Str (Metadata.ChunkID meta));
             ("metadata", json.Marshal (Metadata_fields meta));
             ("transcript", json.Str (Metadata.Transcript meta)) ].

(** ** The goroutines and their channels

    The [jobs] channel is buffered; a result channel is unbuffered, so
    [job.Result <- meta] and [meta := <-result] complete together. *)

Inductive Conn := Upload | WebSocket (r : Request).

(** Where a handler goroutine stands. *)
Inductive Handler :=
| HRead (r : Request)                 (* [conn.ReadMessage()] *)
| HSend (k : Conn) (job : Job)        (* [jobs <- Job{...}] *)
| HRecv (k : Conn) (ch : ChanId)      (* [meta := <-result] *)
| HSave (k : Conn) (meta : Metadata)  (* [store.Save(meta)] and the response *)
| HReturned.

(** Where a goroutine running [TransformStage] stands. *)
Inductive Worker :=
| WSelect                             (* the [select] *)
| WSend (job : Job) (meta : Metadata) (* [job.Result <- meta] *)
| WReturned.                          (* [return] after [<-ctx.Done()] *)

Record System := {
  done : bool;               (* [ctx.Done()] is closed *)
  jobs : list Job;           (* buffer of the [jobs] channel, oldest first *)
  workers : list Worker;
  handlers : list Handler;
  store : MemoryStore;
  chans : nat                (* result channels made so far *)
}.

(** What a handler can see of its submission: spec section 6 gives [submit]
    the results ok and Shutdown; a send on a channel can also block. *)
Inductive Submission := SubmitOk | SubmitShutdown | SubmitBlocked.

(** The submission of both handlers is the bare send [jobs <- Job{...}]: it
    completes when the buffer has room and blocks otherwise. *)
Definition submit (cap : nat) (s : System) (job : Job) : Submission * System :=
  if (length (jobs s) <? cap)%nat
  then (SubmitOk,
        {| done := done s; jobs := jobs s ++ [job]; workers := workers s;
           handlers := handlers s; store := store s; chans := chans s |})
  else (SubmitBlocked, s).

Definition set_handler (h : nat) (x : Handler) (s : System) : System :=
  {| done := done s; jobs := jobs s; workers := workers s;
     handlers := <[h := x]> (handlers s); store := store s; chans := chans s |}.

Definition set_worker (w : nat) (x : Worker) (s : System) : System :=
  {| done := done s; jobs := jobs s; workers := <[w := x]> (workers s);
     handlers := handlers s; store := store s; chans := chans s |}.

(** A handler builds its [Job] with [make(chan Metadata)], a fresh channel. *)
Definition new_job (c : AudioChunk) (s : System) : Job :=
  {| Chunk := c; Result := chans s |}.

(** After the response an upload handler returns and a streaming handler
    reads the next message. *)
Definition after_response (k : Conn) : Handler :=
  match k with
  | Upload => HReturned
  | WebSocket r => HRead r
  end.

Definition response (k : Conn) (meta : Metadata) : json.Value :=
  match k with
  | Upload => handleUpload_response meta
  | WebSocket _ => handleWebSocket_response meta
  end.

Inductive Event :=
| EvCancel
| EvUpload (r : Request) (id : string) (now : Time) (data : list byte)
| EvConnect (r : Request)
| EvMessage (h : nat) (id : string) (now : Time) (msg : list byte)
| EvHangup (h : nat)
| EvEnqueue (h : nat) (job : Job)
| EvDequeue (w : nat) (job : Job) (draw : Z)
| EvWrite (w h : nat) (ch : ChanId) (meta : Metadata)
| EvRespond (h : nat) (body : json.Value)
| EvReturn (w : nat).

(** One step of one goroutine; [cap] is the capacity of [jobs]. *)
Inductive step (cap : nat) : System → Event → System → Prop :=
| step_cancel s :
    step cap s EvCancel
      {| done := true; jobs := jobs s; workers := workers s;
         handlers := handlers s; store := store s; chans := chans s |}
| step_upload s r id now data :
    step cap s (EvUpload r id now data)
      {| done := done s; jobs := jobs s; workers := workers s;
         handlers := handlers s ++
           [HSend Upload (new_job (handleUpload_chunk r id now data) s)];
         store := store s; chans := S (chans s) |}
| step_connect s r :
    step cap s (EvConnect r)
      {| done := done s; jobs := jobs s; workers := workers s;
         handlers := handlers s ++ [HRead r];
         store := store s; chans := chans s |}
| step_message s h r id now msg :
    handlers s !! h = Some (HRead r) →
    step cap s (EvMessage h id now msg)
      {| done := done s; jobs := jobs s; workers := workers s;
         handlers := <[h := HSend (WebSocket r)
                        (new_job (handleWebSocket_chunk r id now msg) s)]>
                       (handlers s);
         store := store s; chans := S (chans s) |}
| step_hangup s h r :
    handlers s !! h = Some (HRead r) →
    step cap s (EvHangup h) (set_handler h HReturned s)
| step_enqueue s h k job s' :
    handlers s !! h = Some (HSend k job) →
    submit cap s job = (SubmitOk, s') →
    step cap s (EvEnqueue h job) (set_handler h (HRecv k (Result job)) s')
| step_dequeue s w job rest draw meta :
    workers s !! w = Some WSelect →
    jobs s = job :: rest →
    TransformStage_job draw job = Some meta →
    step cap s (EvDequeue w job draw)
      {| done := done s; jobs := rest;
         workers := <[w := WSend job meta]> (workers s);
         handlers := handlers s; store := store s; chans := chans s |}
| step_return s w :
    workers s !! w = Some WSelect →
    done s = true →
    step cap s (EvReturn w) (set_worker w WReturned s)
| step_write s w h k job meta :
    workers s !! w = Some (WSend job meta) →
    handlers s !! h = Some (HRecv k (Result job)) →
    step cap s (EvWrite w h (Result job) meta)
      (set_worker w WSelect (set_handler h (HSave k meta) s))
| step_respond s h k meta :
    handlers s !! h = Some (HSave k meta) →
    step cap s (EvRespond h (response k meta))
      {| done := done s; jobs := jobs s; workers := workers s;
         handlers := <[h := after_response k]> (handlers s);
         store := Save meta (store s); chans := chans s |}.

(** A run: the events so far, oldest first. *)
Inductive run (cap : nat) (s0 : System) : list Event → System → Prop :=
| run_nil : run cap s0 [] s0
| run_snoc tr s ev s' :
    run cap s0 tr s → step cap s ev s' → run cap s0 (tr ++ [ev]) s'.

(** [main]: an empty store, an empty [jobs] channel of capacity 100 and one
    [go TransformStage(ctx, jobs)]; [boot n] starts [n] of them. *)
Definition jobs_capacity : nat := 100.

Definition boot (n : nat) : System :=
  {| done := false; jobs := []; workers := replicate n WSelect;
     handlers := []; store := NewMemoryStore; chans := 0 |}.

(** ** Vocabulary of the properties and sample inputs *)

Definition hello : list byte := list_byte_of_string "hello".

(** More payloads: abc, the payload of [TestTransformStage], and one that
    takes two blocks. *)
Definition abc : list byte := list_byte_of_string "abc".

Definition audio_data : list byte := list_byte_of_string "audio data".

Definition two_blocks : list byte :=
  list_byte_of_string "abcdbcdecdefdefgefghfghighijhijkijkljklmklmnlmnomnopnopq".

(** A connection opened with [?user_id=alice&session_id=s9]. *)
Definition alice_request : Request :=
  {| query := {[ "user_id" := ["alice"]; "session_id" := ["s9"] ]} |}.

(** The pipeline with that connection open and its handler reading. *)
Definition alice_connected : System :=
  {| done := false; jobs := []; workers := [WSelect];
     handlers := [HRead alice_request]; store := NewMemoryStore; chans := 0 |}.

(** The chunk [c] with another payload. *)
Definition with_Data (c : AudioChunk) (data : list byte) : AudioChunk :=
  AudioChunk.mk (AudioChunk.ChunkID c) (AudioChunk.UserID c)
    (AudioChunk.SessionID c) (AudioChunk.Timestamp c) data.

(** Every record sits under its own [ChunkID]. *)
Definition keyed (s : MemoryStore) : Prop :=
  ∀ id m, metadata s !! id = Some m → Metadata.ChunkID m = id.

(** No two records of the store share a [ChunkID]. *)
Definition unique_ids (s : MemoryStore) : Prop :=
  NoDup (Metadata.ChunkID <$> records s).

(** Records as the store tests build them, two of one user and one of
    another. *)
Definition meta1 : Metadata :=
  Metadata.mk "chunk1" "user1" "session1" 1 "checksum1" "100Hz" "Test transcript".

Definition meta2 : Metadata :=
  Metadata.mk "chunk2" "user1" "session2" 2 "checksum2" "200Hz" "Test transcript 2".

Definition meta3 : Metadata :=
  Metadata.mk "chunk3" "user2" "session3" 3 "checksum3" "300Hz" "Test transcript 3".

Local Close Scope Z_scope.

(** 1 when [P] holds, 0 otherwise. *)
Definition indicator (P : Prop) `{Decision P} : nat := if decide P then 1 else 0.

(** Where a result channel [ch] can be: in the job a handler is sending, in
    the queue, in the job a worker holds, or in a write that took place. *)
Definition sending (ch : ChanId) (h : Handler) : nat :=
  match h with HSend _ job => indicator (Result job = ch) | _ => 0 end.

Definition receiving (ch : ChanId) (h : Handler) : nat :=
  match h with HRecv _ c => indicator (c = ch) | _ => 0 end.

Definition queued (ch : ChanId) (job : Job) : nat := indicator (Result job = ch).

Definition holding (ch : ChanId) (w : Worker) : nat :=
  match w with WSend job _ => indicator (Result job = ch) | _ => 0 end.

Definition enqueue_of (ch : ChanId) (ev : Event) : nat :=
  match ev with EvEnqueue _ job => indicator (Result job = ch) | _ => 0 end.

Definition dequeue_of (ch : ChanId) (ev : Event) : nat :=
  match ev with EvDequeue _ job _ => indicator (Result job = ch) | _ => 0 end.

Definition write_of (ch : ChanId) (ev : Event) : nat :=
  match ev with EvWrite _ _ c _ => indicator (c = ch) | _ => 0 end.

(** The invariant of a run [tr] that ends in [s]. *)
Record pipeline_inv (tr : list Event) (s : System) : Prop := {
  (* a channel that was made is in exactly one place *)
  inv_place : ∀ ch,
    sum_list_with (sending ch) (handlers s) + sum_list_with (queued ch) (jobs s)
    + sum_list_with (holding ch) (workers s) + sum_list_with (write_of ch) tr
    = indicator (ch < chans s);
  (* what was enqueued is queued or was dequeued *)
  inv_enqueued : ∀ ch,
    sum_list_with (enqueue_of ch) tr
    = sum_list_with (queued ch) (jobs s) + sum_list_with (dequeue_of ch) tr;
  (* what was dequeued is held or was written *)
  inv_dequeued : ∀ ch,
    sum_list_with (dequeue_of ch) tr
    = sum_list_with (holding ch) (workers s) + sum_list_with (write_of ch) tr;
  (* a reader waits for every job on its way *)
  inv_reader : ∀ ch,
    sum_list_with (receiving ch) (handlers s)
    = sum_list_with (queued ch) (jobs s) + sum_list_with (holding ch) (workers s);
  (* a worker holds what it dequeued, with the metadata it computed *)
  inv_held : ∀ w job meta,
    workers s !! w = Some (WSend job meta) →
    ∃ draw, EvDequeue w job draw ∈ tr ∧ TransformStage_job draw job = Some meta;
  (* a write is by the worker that dequeued the job, of its metadata *)
  inv_written : ∀ w h ch meta,
    EvWrite w h ch meta ∈ tr →
    ∃ job draw, Result job = ch ∧ EvDequeue w job draw ∈ tr
                ∧ TransformStage_job draw job = Some meta
}.

(** The job of one upload, the first of a run. *)
Definition demo_job : Job :=
  new_job (handleUpload_chunk alice_request "id-1" 17%Z hello) (boot 1).

Definition demo_meta : Metadata :=
  Metadata.mk "id-1" "alice" "s9" 17%Z
    "2cf24dba5fb0a30e26e83b2ac5b9e29e1b161e5c1fa7425e73043362938b9824"
    "7Hz" "Hello World".

(** One upload, carried up to the point where the worker holds the job. *)
Definition demo_trace : list Event :=
  [ EvUpload alice_request "id-1" 17%Z hello;
    EvEnqueue 0 demo_job;
    EvDequeue 0 demo_job 7%Z ].

Definition demo_state : System :=
  {| done := false; jobs := []; workers := [WSend demo_job demo_meta];
     handlers := [HRecv Upload 0]; store := NewMemoryStore; chans := 1 |}.

(** The state after [job] went into the queue. *)
Definition enqueued (s : System) (job : Job) : System :=
  {| done := done s; jobs := jobs s ++ [job]; workers := workers s;
     handlers := handlers s; store := store s; chans := chans s |}.

(** Every goroutine of [TransformStage] has returned. *)
Definition all_returned (s : System) : Prop :=
  ∀ w x, workers s !! w = Some x → x = WReturned.

(** [main]'s pipeline after a cancellation that the worker has seen, with an
    upload handler about to submit. *)
Definition cancelled_state : System :=
  {| done := true; jobs := []; workers := [WReturned];
     handlers := [HSend Upload demo_job]; store := NewMemoryStore;
     chans := 1 |}.

(** The job of a second upload. *)
Definition second_job : Job :=
  {| Chunk := handleUpload_chunk alice_request "id-2" 18%Z hello; Result := 1 |}.

(** A queue of capacity 1 (as in [TestTransformStage]) that is full, no
    worker draining it, with the second upload handler about to submit. *)
Definition full_state (cancelled : bool) : System :=
  {| done := cancelled; jobs := [demo_job]; workers := [];
     handlers := [HRecv Upload 0; HSend Upload second_job];
     store := NewMemoryStore; chans := 2 |}.

(** ** The rest of [main.go]: the read handlers and the upload buffer *)

Module http.

Definition StatusOK : Z := 200%Z.

Definition StatusNotFound : Z := 404%Z.

(** What a handler wrote to the [ResponseWriter]: one JSON value, a JSON
    array, the JSON [null], or plain text. *)
Inductive Body :=
| JSON (v : json.Value)
| JSONArray (items : list json.Value)
| JSONNull
| Text (s : string).

Record Response := { code : Z; content_type : string; payload : Body }.

(** [http.Error(w, msg, code)]: plain text, the message and a newline. *)
Definition Error (msg : string) (status : Z) : Response :=
  {| code := status; content_type := "text/plain; charset=utf-8";
     payload := Text (msg +:+ String (ascii_of_nat 10) "") |}.

End http.

(** [handleGetChunk]; [id] is [mux.Vars(r)["id"]]. *)
Definition handleGetChunk (s : MemoryStore) (id : string) : http.Response :=
  match Get id s with
  | (meta, true) =>
      {| http.code := http.StatusOK; http.content_type := "application/json";
         http.payload := http.JSON (json.Marshal (Metadata_fields meta)) |}
  | (_, false) => http.Error "Not Found" http.StatusNotFound
  end.

(** [json.NewEncoder(w).Encode(result)] on the slice of [ListByUser]: the
    slice is nil when the loop appended nothing, and a nil slice is written
    as [null]. *)
Definition Encode_slice (result : list Metadata) : http.Body :=
  match result with
  | [] => http.JSONNull
  | _ => http.JSONArray ((fun m => json.Marshal (Metadata_fields m)) <$> result)
  end.

(** [handleGetUserSessions]; [userID] is [mux.Vars(r)["user_id"]]. The
    response follows the order [ListByUser] happened to visit the map in. *)
Definition handleGetUserSessions (s : MemoryStore) (userID : string)
  (resp : http.Response) : Prop :=
  ∃ result, ListByUser s userID result
            ∧ resp = {| http.code := http.StatusOK;
                        http.content_type := "application/json";
                        http.payload := Encode_slice result |}.

(** [make([]byte, n)]: a zeroed buffer of [n] bytes. The runtime refuses a
    negative length and a length above what it can allocate (it panics with
    len out of range, or dies out of memory); [limit] is the largest length
    it grants at this call, and [None] stands for the refusal. *)
Definition make_bytes (limit n : Z) : option (list byte) :=
  if ((n <? 0) || (limit <? n))%Z then None
  else Some (replicate (Z.to_nat n) x00).

(** [r.Body.Read(data)], one call: it copies some [n] bytes of the body, no
    more than the body has and no more than [data] holds, to the front of
    [data]; the handler drops the count and the error. *)
Definition Body_Read (content : list byte) (n : nat) (data : list byte)
  : list byte :=
  let n := Nat.min n (Nat.min (length content) (length data)) in
  take n content ++ drop n data.

(** The first two lines of [handleUpload]: [declared] is [r.ContentLength],
    an [int64] the client chooses, [content] the bytes of the body and [n]
    what the one [Read] delivers. *)
Definition handleUpload_data (limit declared : Z) (content : list byte)
  (n : nat) : option (list byte) :=
  data ← make_bytes limit declared;
  Some (Body_Read content n data).

(** ** Repeated saves and the jobs of a run *)

(** [Save] of each record of [l], first to last. *)
Definition saves (l : list Metadata) (s : MemoryStore) : MemoryStore :=
  foldl (fun s m => Save m s) s l.

(** The jobs sent on [jobs], and those received from it, in order. *)
Definition enqueued_jobs (tr : list Event) : list Job :=
  omap (fun ev => match ev with EvEnqueue _ job => Some job | _ => None end) tr.

Definition dequeued_jobs (tr : list Event) : list Job :=
  omap (fun ev => match ev with EvDequeue _ job _ => Some job | _ => None end)
       tr.

(** Handlers past their send and waiting for a result; workers holding a
    job. *)
Definition waiting (h : Handler) : nat :=
  match h with HRecv _ _ => 1 | _ => 0 end.

Definition busy (w : Worker) : nat :=
  match w with WSend _ _ => 1 | _ => 0 end.

(** The events of worker [w]. *)
Definition by_worker (w : nat) (ev : Event) : Prop :=
  match ev with
  | EvDequeue w' _ _ | EvWrite w' _ _ _ | EvReturn w' => w' = w
  | _ => False
  end.

(** What the events of a run [tr] that ends in [s] say about the handlers
    and the store. *)
Record delivery_inv (tr : list Event) (s : System) : Prop := {
  (* a handler waits on the channel of a job it sent itself *)
  del_recv : ∀ h k ch,
    handlers s !! h = Some (HRecv k ch) →
    ∃ job, EvEnqueue h job ∈ tr ∧ Result job = ch;
  (* a handler holds what was written to it *)
  del_save : ∀ h k meta,
    handlers s !! h = Some (HSave k meta) →
    ∃ w ch, EvWrite w h ch meta ∈ tr;
  (* the reader of a channel is the handler that sent the job *)
  del_write : ∀ w h ch meta,
    EvWrite w h ch meta ∈ tr →
    ∃ job, EvEnqueue h job ∈ tr ∧ Result job = ch;
  (* a response is what was written to the handler, and it is stored *)
  del_respond : ∀ h body,
    EvRespond h body ∈ tr →
    ∃ k meta w ch, body = response k meta ∧ EvWrite w h ch meta ∈ tr
                   ∧ is_Some (metadata (store s) !! Metadata.ChunkID meta);
  (* a stored record sits under its chunk id and was written to a handler *)
  del_store : ∀ id m,
    metadata (store s) !! id = Some m →
    Metadata.ChunkID m = id ∧ ∃ w h ch, EvWrite w h ch m ∈ tr
}.

(** One upload carried to its end: the run of [demo_trace], then the write
    of the result and the response. *)
Definition upload_trace : list Event :=
  demo_trace ++ [ EvWrite 0 0 0 demo_meta;
                  EvRespond 0 (handleUpload_response demo_meta) ].

Definition upload_state : System :=
  {| done := false; jobs := []; workers := [WSelect];
     handlers := [HReturned]; store := Save demo_meta NewMemoryStore;
     chans := 1 |}.

(** ** Executions that go on for ever

    [st i] is the state at moment [i] and [ev i] what happens then: a step
    of some goroutine, or nothing ([None]) when the scheduler leaves them
    all idle. *)
Record execution (cap n : nat) (st : nat → System) (ev : nat → option Event)
  : Prop := {
  exec_boot : st 0 = boot n;
  exec_next : ∀ i,
    match ev i with
    | Some e => step cap (st i) e (st (S i))
    | None => st (S i) = st i
    end
}.

(** The events of the moments before [k], oldest first. *)
Definition events_upto (ev : nat → option Event) (k : nat) : list Event :=
  omap ev (seq 0 k).

(** Worker [w] can complete its send [job.Result <- meta] in [s]. *)
Definition write_enabled (cap : nat) (s : System) (w : nat) : Prop :=
  ∃ h ch meta s', step cap s (EvWrite w h ch meta) s'.

Definition is_write_by (w : nat) (e : option Event) : bool :=
  match e with
  | Some (EvWrite w' _ _ _) => bool_decide (w' = w)
  | _ => false
  end.

(** The scheduler is weakly fair to the send of worker [w]: the send is
    not left enabled for ever without being taken. Go's scheduler runs
    every goroutine that can run. *)
Definition fair_send (cap : nat) (st : nat → System) (ev : nat → option Event)
  (w : nat) : Prop :=
  ∀ i, ∃ j, i ≤ j ∧ (¬ write_enabled cap (st j) w ∨ is_write_by w (ev j) = true).

(** The execution of one upload: the five steps of [upload_trace], then
    nothing more. *)
Definition upload_events (i : nat) : option Event := upload_trace !! i.

Definition upload_states (i : nat) : System :=
  match i with
  | 0 => boot 1
  | 1 => {| done := false; jobs := []; workers := [WSelect];
            handlers := [HSend Upload demo_job]; store := NewMemoryStore;
            chans := 1 |}
  | 2 => {| done := false; jobs := [demo_job]; workers := [WSelect];
            handlers := [HRecv Upload 0]; store := NewMemoryStore;
            chans := 1 |}
  | 3 => demo_state
  | 4 => {| done := false; jobs := []; workers := [WSelect];
            handlers := [HSave Upload demo_meta]; store := NewMemoryStore;
            chans := 1 |}
  | _ => upload_state
  end.

(** ** The echo server of the second program

    [wsHandler] reads messages until [conn.ReadMessage()] fails and writes
    each one back with its message type. *)
Inductive ReadResult :=
| ReadOk (msgType : Z) (msg : list byte)
| ReadErr.

(** The loop of [wsHandler] over the results of its reads; the value is the
    sequence of [conn.WriteMessage(msgType, msg)] calls. *)
Fixpoint wsHandler (reads : list ReadResult) : list (Z * list byte) :=
  match reads with
  | ReadOk msgType msg :: rest => (msgType, msg) :: wsHandler rest
  | ReadErr :: _ => []
  | [] => []
  end.

(** ** Decoding a hex string *)

Definition unhex_digit (c : ascii) : option Z :=
  let n := Z.of_nat (nat_of_ascii c) in
  if ((48 <=? n) && (n <=? 57))%Z then Some (n - 48)%Z
  else if ((97 <=? n) && (n <=? 102))%Z then Some (n - 87)%Z
  else None.

Fixpoint unhex (s : string) : option (list byte) :=
  match s with
  | EmptyString => Some []
  | String c1 (String c2 rest) =>
      hi ← unhex_digit c1;
      lo ← unhex_digit c2;
      bs ← unhex rest;
      Some (sha256.byte_of_Z (hi * 16 + lo)%Z :: bs)
  | String _ EmptyString => None
  end.

(** * Properties *)

Local Open Scope Z_scope.

Example K_from_cube_roots :
  forallb (fun e => sha256.is_cube_root_word e.1 e.2) sha256.K_table = true
  ∧ length sha256._K = 64%nat.
Proof. split; vm_compute; reflexivity. Qed.

Example sha_abc :
  fmt.Sprintf_x (sha256.Sum256 (list_byte_of_string "abc"))
  = "ba7816bf8f01cfea414140de5dae2223b00361a396177a9cb410ff61f20015ad"%string.
Proof. vm_compute. reflexivity. Qed.

Example sha_two_blocks :
  fmt.Sprintf_x (sha256.Sum256 (list_byte_of_string
     "abcdbcdecdefdefgefghfghighijhijkijkljklmklmnlmnomnopnopq"))
  = "248d6a61d20638b8e5c026930c3e6039a33ce45964ff2167f6ecedd419db06c1"%string.
Proof. vm_compute. reflexivity. Qed.

(** ** The transformation of one job *)

Lemma Sum256_length data : length (sha256.Sum256 data) = 32%nat.
Proof.
  unfold sha256.Sum256.
  destruct (sha256.block _ _ _); reflexivity.
Qed.

Lemma Sprintf_x_length b : String.length (fmt.Sprintf_x b) = (2 * length b)%nat.
Proof.
  induction b as [|x b IH]; [reflexivity|].
  cbn [fmt.Sprintf_x String.length length]. rewrite IH. lia.
Qed.

Lemma Sprintf_dHz_not_empty n : fmt.Sprintf_dHz n ≠ "".
Proof.
  unfold fmt.Sprintf_dHz.
  destruct (fmt.Sprintf_d n); discriminate.
Qed.

Lemma Intn_10000 draw :
  rand.Intn draw 10000 = Some (draw mod 10000) ∧ 0 ≤ draw mod 10000 < 10000.
Proof. split; [reflexivity | apply Z.mod_pos_bound; lia]. Qed.

(** The value sent on [job.Result], in closed form. *)
Lemma TransformStage_job_eq draw job :
  TransformStage_job draw job =
  Some (Metadata.mk
          (AudioChunk.ChunkID (Chunk job)) (AudioChunk.UserID (Chunk job))
          (AudioChunk.SessionID (Chunk job)) (AudioChunk.Timestamp (Chunk job))
          (fmt.Sprintf_x (sha256.Sum256 (AudioChunk.Data (Chunk job))))
          (fmt.Sprintf_dHz (draw mod 10000))
          "Hello World").
Proof. reflexivity. Qed.

Lemma sha256_hello :
  fmt.Sprintf_x (sha256.Sum256 hello)
  = "2cf24dba5fb0a30e26e83b2ac5b9e29e1b161e5c1fa7425e73043362938b9824"%string.
Proof. vm_compute. reflexivity. Qed.

Lemma sha256_empty :
  fmt.Sprintf_x (sha256.Sum256 [])
  = "e3b0c44298fc1c149afbf4c8996fb92427ae41e4649b934ca495991b7852b855"%string.
Proof. vm_compute. reflexivity. Qed.

Lemma sha256_abc :
  fmt.Sprintf_x (sha256.Sum256 abc)
  = "ba7816bf8f01cfea414140de5dae2223b00361a396177a9cb410ff61f20015ad"%string.
Proof. vm_compute. reflexivity. Qed.

Lemma sha256_audio_data :
  fmt.Sprintf_x (sha256.Sum256 audio_data)
  = "bb24d9039ce8110cea840a7e6bc521b33448439fd79f119dff175de8796c8574"%string.
Proof. vm_compute. reflexivity. Qed.

Lemma sha256_two_blocks :
  fmt.Sprintf_x (sha256.Sum256 two_blocks)
  = "248d6a61d20638b8e5c026930c3e6039a33ce45964ff2167f6ecedd419db06c1"%string.
Proof. vm_compute. reflexivity. Qed.

(** The checksum the stage gives a chunk with payload [data], whatever the
    other fields, the result channel and the draw. *)
Lemma checksum_of_payload draw id user session now ch data :
  Metadata.Checksum
    <$> TransformStage_job draw
          {| Chunk := AudioChunk.mk id user session now data; Result := ch |}
  = Some (fmt.Sprintf_x (sha256.Sum256 data)).
Proof. by rewrite TransformStage_job_eq. Qed.

(** C2. For every chunk the stage produces a Metadata whose [ChunkID],
    [UserID], [SessionID] and [Timestamp] are those of the chunk, whose
    [Checksum] is the 64-digit hex SHA-256 of the payload, whose [FFT] is a
    number below 10000 followed by Hz and whose [Transcript] is set; for the
    payload hello and the submitter u1 the checksum is the well-known digest
    and the submitter is u1. The checksum follows the payload: the empty
    payload, abc, the payload of the stage's own test and a payload of two
    blocks each get their well-known SHA-256 digest, whatever the other
    fields, and two chunks that differ in the payload alone (hello and abc)
    get different checksums. *)
Theorem transform_copies_and_derives :
  (∀ draw job, ∃ meta,
      TransformStage_job draw job = Some meta
      ∧ Metadata.ChunkID meta = AudioChunk.ChunkID (Chunk job)
      ∧ Metadata.UserID meta = AudioChunk.UserID (Chunk job)
      ∧ Metadata.SessionID meta = AudioChunk.SessionID (Chunk job)
      ∧ Metadata.Timestamp meta = AudioChunk.Timestamp (Chunk job)
      ∧ Metadata.Checksum meta
        = fmt.Sprintf_x (sha256.Sum256 (AudioChunk.Data (Chunk job)))
      ∧ String.length (Metadata.Checksum meta) = 64%nat
      ∧ (∃ n, 0 ≤ n < 10000 ∧ Metadata.FFT meta = fmt.Sprintf_dHz n)
      ∧ Metadata.FFT meta ≠ ""
      ∧ Metadata.Transcript meta ≠ "")
  ∧ (∀ draw id session now ch, ∃ meta,
      TransformStage_job draw
        {| Chunk := AudioChunk.mk id "u1" session now hello; Result := ch |}
      = Some meta
      ∧ Metadata.Checksum meta
        = "2cf24dba5fb0a30e26e83b2ac5b9e29e1b161e5c1fa7425e73043362938b9824"
      ∧ Metadata.UserID meta = "u1")
  ∧ (∀ draw id user session now ch,
      Metadata.Checksum
        <$> TransformStage_job draw
              {| Chunk := AudioChunk.mk id user session now []; Result := ch |}
      = Some "e3b0c44298fc1c149afbf4c8996fb92427ae41e4649b934ca495991b7852b855"
      ∧ Metadata.Checksum
          <$> TransformStage_job draw
                {| Chunk := AudioChunk.mk id user session now abc;
                   Result := ch |}
        = Some "ba7816bf8f01cfea414140de5dae2223b00361a396177a9cb410ff61f20015ad"
      ∧ Metadata.Checksum
          <$> TransformStage_job draw
                {| Chunk := AudioChunk.mk id user session now audio_data;
                   Result := ch |}
        = Some "bb24d9039ce8110cea840a7e6bc521b33448439fd79f119dff175de8796c8574"
      ∧ Metadata.Checksum
          <$> TransformStage_job draw
                {| Chunk := AudioChunk.mk id user session now two_blocks;
                   Result := ch |}
        = Some "248d6a61d20638b8e5c026930c3e6039a33ce45964ff2167f6ecedd419db06c1")
  ∧ (∀ draw1 draw2 id user session now ch,
      Metadata.Checksum
        <$> TransformStage_job draw1
              {| Chunk := AudioChunk.mk id user session now hello;
                 Result := ch |}
      ≠ Metadata.Checksum
          <$> TransformStage_job draw2
                {| Chunk := AudioChunk.mk id user session now abc;
                   Result := ch |}).
Proof.
  split; [|split; [|split]].
  - intros draw job. eexists. split; [apply TransformStage_job_eq|].
    cbn [Metadata.ChunkID Metadata.UserID Metadata.SessionID Metadata.Timestamp
         Metadata.Checksum Metadata.FFT Metadata.Transcript].
    repeat split.
    + by rewrite Sprintf_x_length, Sum256_length.
    + exists (draw mod 10000). split; [apply Intn_10000 | done].
    + apply Sprintf_dHz_not_empty.
    + discriminate.
  - intros draw id session now ch. eexists.
    split; [apply TransformStage_job_eq|].
    split; [apply sha256_hello | reflexivity].
  - intros draw id user session now ch. rewrite !checksum_of_payload.
    by rewrite sha256_empty, sha256_abc, sha256_audio_data, sha256_two_blocks.
  - intros draw1 draw2 id user session now ch. rewrite !checksum_of_payload.
    rewrite sha256_hello, sha256_abc. discriminate.
Qed.

(** C6. Two chunks with the same payload get the same checksum, whatever
    their other fields, their result channels and the random draws. *)
Theorem checksum_deterministic draw1 draw2 job1 job2 meta1 meta2 :
  AudioChunk.Data (Chunk job1) = AudioChunk.Data (Chunk job2) →
  TransformStage_job draw1 job1 = Some meta1 →
  TransformStage_job draw2 job2 = Some meta2 →
  Metadata.Checksum meta1 = Metadata.Checksum meta2.
Proof.
  intros Hdata H1 H2.
  rewrite TransformStage_job_eq in H1, H2.
  injection H1 as <-. injection H2 as <-.
  cbn [Metadata.Checksum]. by rewrite Hdata.
Qed.

Lemma checksum_deterministic_witness :
  Metadata.Checksum
    (Metadata.mk "a" "u1" "s1" 1
       (fmt.Sprintf_x (sha256.Sum256 hello)) (fmt.Sprintf_dHz 7) "Hello World")
  = Metadata.Checksum
    (Metadata.mk "b" "u2" "s2" 2
       (fmt.Sprintf_x (sha256.Sum256 hello)) (fmt.Sprintf_dHz 9) "Hello World").
Proof.
  apply (checksum_deterministic 7 9
           {| Chunk := AudioChunk.mk "a" "u1" "s1" 1 hello; Result := 0%nat |}
           {| Chunk := AudioChunk.mk "b" "u2" "s2" 2 hello; Result := 1%nat |});
    reflexivity.
Defined.

(** C7. The stage has no failing input: for every chunk and every draw it
    produces a Metadata, never the panic; for the empty payload the checksum
    is the SHA-256 digest of the empty byte sequence. *)
Theorem transform_never_fails :
  (∀ draw job, TransformStage_job draw job ≠ None
               ∧ is_Some (TransformStage_job draw job))
  ∧ (∀ draw id user session now ch,
      TransformStage_job draw
        {| Chunk := AudioChunk.mk id user session now []; Result := ch |}
      = Some (Metadata.mk id user session now
                "e3b0c44298fc1c149afbf4c8996fb92427ae41e4649b934ca495991b7852b855"
                (fmt.Sprintf_dHz (draw mod 10000)) "Hello World")).
Proof.
  split.
  - intros draw job. rewrite TransformStage_job_eq. split; [discriminate | eauto].
  - intros. rewrite TransformStage_job_eq. cbn [Chunk AudioChunk.Data].
    by rewrite sha256_empty.
Qed.

(** C10. Whatever the chunk and the draw, the transcript of the produced
    Metadata is the constant Hello World. *)
Theorem transcript_constant draw job :
  Metadata.Transcript <$> TransformStage_job draw job = Some "Hello World".
Proof. by rewrite TransformStage_job_eq. Qed.

(** ** The streaming handler's chunk *)

Lemma message_step_inv cap s h id now msg s' :
  step cap s (EvMessage h id now msg) s' →
  ∃ r, handlers s !! h = Some (HRead r)
       ∧ handlers s' !! h
         = Some (HSend (WebSocket r)
                   (new_job (handleWebSocket_chunk r id now msg) s)).
Proof.
  inversion 1; subst. eexists; split; [eassumption|].
  cbn [handlers]. apply list_lookup_insert_eq.
  by eapply lookup_lt_Some.
Qed.

(** C9. The chunk built for a message of a streaming connection has the
    submitter user1 and the session sess1, whatever request opened the
    connection; so two connections opened with different query parameters
    submit the same chunk for the same message, and after the handler's step
    for a message the job it is about to send carries these constants and
    the message as payload. *)
Theorem websocket_identifiers_fixed :
  (∀ r id now msg,
      AudioChunk.UserID (handleWebSocket_chunk r id now msg) = "user1"
      ∧ AudioChunk.SessionID (handleWebSocket_chunk r id now msg) = "sess1")
  ∧ (∀ r1 r2 id now msg,
      handleWebSocket_chunk r1 id now msg = handleWebSocket_chunk r2 id now msg)
  ∧ (∀ cap s h id now msg s',
      step cap s (EvMessage h id now msg) s' →
      ∃ r job, handlers s' !! h = Some (HSend (WebSocket r) job)
               ∧ AudioChunk.UserID (Chunk job) = "user1"
               ∧ AudioChunk.SessionID (Chunk job) = "sess1"
               ∧ AudioChunk.Data (Chunk job) = msg).
Proof.
  split; [by intros | split; [by intros|]].
  intros cap s h id now msg s' Hstep.
  destruct (message_step_inv _ _ _ _ _ _ _ Hstep) as (r & _ & Hh).
  by exists r, (new_job (handleWebSocket_chunk r id now msg) s).
Qed.

Lemma websocket_identifiers_fixed_witness :
  ∃ s' r job,
    step jobs_capacity alice_connected (EvMessage 0 "id-1" 17 hello) s'
    ∧ handlers s' !! 0%nat = Some (HSend (WebSocket r) job)
    ∧ AudioChunk.UserID (Chunk job) = "user1"
    ∧ AudioChunk.SessionID (Chunk job) = "sess1"
    ∧ AudioChunk.Data (Chunk job) = hello.
Proof.
  assert (Hstep : step jobs_capacity alice_connected (EvMessage 0 "id-1" 17 hello)
            {| done := false; jobs := []; workers := [WSelect];
               handlers := [HSend (WebSocket alice_request)
                              (new_job (handleWebSocket_chunk alice_request
                                          "id-1" 17 hello) alice_connected)];
               store := NewMemoryStore; chans := 1 |}).
  { apply (step_message jobs_capacity alice_connected 0 alice_request).
    reflexivity. }
  destruct (proj2 (proj2 websocket_identifiers_fixed) _ _ _ _ _ _ _ Hstep)
    as (r & job & H).
  exact (ex_intro _ _ (ex_intro _ r (ex_intro _ job (conj Hstep H)))).
Defined.

(** The upload handler, for contrast, takes both from the query string. *)
Lemma upload_identifiers_from_query :
  AudioChunk.UserID (handleUpload_chunk alice_request "id-1" 17 hello) = "alice"
  ∧ AudioChunk.SessionID (handleUpload_chunk alice_request "id-1" 17 hello) = "s9".
Proof. split; vm_compute; reflexivity. Qed.

(** ** Serialized forms *)

(** C8. The payload is in no serialized form: the JSON of an [AudioChunk] has
    the four members chunk_id, user_id, session_id and timestamp, holds no
    byte sequence and is the same whatever the payload; the JSON of a
    [Metadata] has its seven members, none of them a payload, and neither the
    upload response nor the streaming acknowledgement holds a byte sequence. *)
Theorem payload_never_serialized :
  (∀ c, json.keys (json.Marshal (AudioChunk_fields c))
        = ["chunk_id"; "user_id"; "session_id"; "timestamp"]
        ∧ json.has_bytes (json.Marshal (AudioChunk_fields c)) = false)
  ∧ (∀ c data,
        json.Marshal (AudioChunk_fields (with_Data c data))
        = json.Marshal (AudioChunk_fields c))
  ∧ (∀ m, json.keys (json.Marshal (Metadata_fields m))
          = ["chunk_id"; "user_id"; "session_id"; "timestamp";
             "checksum"; "fft"; "transcript"]
          ∧ json.has_bytes (json.Marshal (Metadata_fields m)) = false)
  ∧ (∀ k m, json.has_bytes (response k m) = false).
Proof.
  repeat split; try reflexivity.
  intros [|r] m; reflexivity.
Qed.

(** ** The store *)

Lemma keyed_new : keyed NewMemoryStore.
Proof. intros id m. cbn. by rewrite lookup_empty. Qed.

Lemma keyed_Save s m : keyed s → keyed (Save m s).
Proof.
  intros Hk id m'. cbn. rewrite lookup_insert.
  case_decide; [congruence | apply Hk].
Qed.

Lemma keyed_unique s : keyed s → unique_ids s.
Proof.
  intros Hk. unfold unique_ids, records.
  assert (Heq : Metadata.ChunkID <$> (map_to_list (metadata s)).*2
                = (map_to_list (metadata s)).*1).
  { rewrite <- list_fmap_compose. apply list_fmap_ext.
    intros i [id m] Hi. cbn.
    apply Hk, elem_of_map_to_list, list_elem_of_lookup. eauto. }
  rewrite Heq. apply NoDup_fst_map_to_list.
Qed.

Lemma Get_Save s m : Get (Metadata.ChunkID m) (Save m s) = (m, true).
Proof. unfold Get, Save. cbn. by rewrite lookup_insert_eq. Qed.

Lemma Get_Save_ne s m id :
  id ≠ Metadata.ChunkID m → Get id (Save m s) = Get id s.
Proof. intros Hne. unfold Get, Save. cbn. by rewrite lookup_insert_ne. Qed.

(** C4. After [Save m], [Get] at [m]'s chunk id finds [m] itself, in all
    fields; the other keys read as before, so [Save] inserts or overwrites
    exactly one key; [Save] is a total function (it has no error result);
    and in a store built from [NewMemoryStore] by saves, where each record
    sits under its own chunk id, no two records share a chunk id after the
    save either. *)
Theorem save_then_get s m :
  Get (Metadata.ChunkID m) (Save m s) = (m, true)
  ∧ (∀ id, id ≠ Metadata.ChunkID m → Get id (Save m s) = Get id s)
  ∧ keyed NewMemoryStore
  ∧ (keyed s → keyed (Save m s) ∧ unique_ids (Save m s)).
Proof.
  split; [apply Get_Save|].
  split; [intros id; apply Get_Save_ne|].
  split; [apply keyed_new|].
  intros Hk. split; [|apply keyed_unique]; by apply keyed_Save.
Qed.

Lemma save_then_get_witness :
  keyed (Save meta1 NewMemoryStore)
  ∧ Get "chunk2" (Save meta2 (Save meta1 NewMemoryStore)) = (meta2, true)
  ∧ unique_ids (Save meta2 (Save meta1 NewMemoryStore)).
Proof.
  assert (Hk : keyed (Save meta1 NewMemoryStore)).
  { intros id m. cbn. rewrite lookup_insert. case_decide.
    - intros [= <-]. by subst id.
    - by rewrite lookup_empty. }
  destruct (save_then_get (Save meta1 NewMemoryStore) meta2)
    as (Hget & _ & _ & Hkeep).
  exact (conj Hk (conj Hget (proj2 (Hkeep Hk)))).
Defined.

(** The loop collects, in visiting order, the records of the wanted user. *)
Lemma ListByUser_loop_filter userID it :
  ListByUser_loop userID it
  = filter (fun m => Metadata.UserID m = userID) it.*2.
Proof.
  unfold ListByUser_loop.
  enough (H : ∀ acc,
             fold_left (fun result (e : string * Metadata) =>
                          if decide (Metadata.UserID e.2 = userID)
                          then result ++ [e.2] else result) it acc
             = acc ++ filter (fun m => Metadata.UserID m = userID) it.*2)
    by apply (H []).
  induction it as [|[id m] it IH]; intros acc; cbn [fold_left fmap list_fmap].
  - by rewrite app_nil_r.
  - rewrite IH. cbn [snd]. rewrite filter_cons.
    case_decide; [by rewrite <- app_assoc | done].
Qed.

Lemma ListByUser_scan s userID result :
  ListByUser s userID result → result ≡ₚ linear_scan userID s.
Proof.
  intros (it & Hit & ->). rewrite ListByUser_loop_filter.
  unfold linear_scan, records. unfold range_order in Hit. by rewrite Hit.
Qed.

Lemma ListByUser_total s userID : ∃ result, ListByUser s userID result.
Proof.
  eexists. exists (map_to_list (metadata s)).
  split; [unfold range_order|]; reflexivity.
Qed.

Lemma elem_of_linear_scan s userID m :
  m ∈ linear_scan userID s
  ↔ ∃ id, metadata s !! id = Some m ∧ Metadata.UserID m = userID.
Proof.
  unfold linear_scan, records. rewrite list_elem_of_filter, list_elem_of_fmap.
  split.
  - intros (Hu & [id m'] & -> & Hin). exists id.
    by apply elem_of_map_to_list in Hin.
  - intros (id & Hin & Hu). split; [done|]. exists (id, m).
    split; [done | by apply elem_of_map_to_list].
Qed.

Lemma records_three m1 m2 m3 :
  Metadata.ChunkID m1 ≠ Metadata.ChunkID m2 →
  Metadata.ChunkID m1 ≠ Metadata.ChunkID m3 →
  Metadata.ChunkID m2 ≠ Metadata.ChunkID m3 →
  records (Save m3 (Save m2 (Save m1 NewMemoryStore))) ≡ₚ [m3; m2; m1].
Proof.
  intros H12 H13 H23. unfold records, Save, NewMemoryStore. cbn [metadata].
  rewrite map_to_list_insert.
  2:{ rewrite lookup_insert_ne by done. rewrite lookup_insert_ne by done.
      apply lookup_empty. }
  rewrite map_to_list_insert.
  2:{ rewrite lookup_insert_ne by done. apply lookup_empty. }
  rewrite map_to_list_insert by apply lookup_empty.
  by rewrite map_to_list_empty.
Qed.

(** C5. [ListByUser] returns, and whatever order the map is visited in, the
    slice it returns is a rearrangement of the linear scan of the store
    filtered by the user: it holds exactly the stored records of that user.
    After saving two records of one user and one of another, under three
    chunk ids, it returns 2 records for the first user, 1 for the second and
    0 for a third. *)
Theorem list_by_user_is_scan :
  (∀ s u, ∃ result, ListByUser s u result)
  ∧ (∀ s u result,
        ListByUser s u result →
        result ≡ₚ linear_scan u s
        ∧ ∀ m, m ∈ result
               ↔ ∃ id, metadata s !! id = Some m ∧ Metadata.UserID m = u)
  ∧ (∀ m1 m2 m3 u1 u2 u3 r1 r2 r3,
        Metadata.ChunkID m1 ≠ Metadata.ChunkID m2 →
        Metadata.ChunkID m1 ≠ Metadata.ChunkID m3 →
        Metadata.ChunkID m2 ≠ Metadata.ChunkID m3 →
        Metadata.UserID m1 = u1 → Metadata.UserID m2 = u1 →
        Metadata.UserID m3 = u2 →
        u1 ≠ u2 → u3 ≠ u1 → u3 ≠ u2 →
        let s := Save m3 (Save m2 (Save m1 NewMemoryStore)) in
        ListByUser s u1 r1 → ListByUser s u2 r2 → ListByUser s u3 r3 →
        length r1 = 2%nat ∧ length r2 = 1%nat ∧ length r3 = 0%nat).
Proof.
  split; [apply ListByUser_total|]. split.
  - intros s u result Hl. pose proof (ListByUser_scan _ _ _ Hl) as Hp.
    split; [done|]. intros m. rewrite Hp. apply elem_of_linear_scan.
  - intros m1 m2 m3 u1 u2 u3 r1 r2 r3 H12 H13 H23 Hu1 Hu2 Hu3 Hne H31 H32 s
      Hr1 Hr2 Hr3.
    apply ListByUser_scan in Hr1, Hr2, Hr3.
    rewrite Hr1, Hr2, Hr3. unfold linear_scan, s.
    rewrite !(records_three m1 m2 m3) by done.
    rewrite !filter_cons, !filter_nil.
    repeat case_decide; try congruence; by cbn.
Qed.

Lemma list_by_user_is_scan_witness :
  let s := Save meta3 (Save meta2 (Save meta1 NewMemoryStore)) in
  ListByUser s "user1" [meta1; meta2]
  ∧ ListByUser s "user2" [meta3]
  ∧ ListByUser s "user3" []
  ∧ [meta1; meta2] ≡ₚ linear_scan "user1" s
  ∧ length [meta1; meta2] = 2%nat
  ∧ length [meta3] = 1%nat
  ∧ length (@nil Metadata) = 0%nat.
Proof.
  intros s.
  assert (Hit : range_order s
                  [("chunk3", meta3); ("chunk1", meta1); ("chunk2", meta2)]).
  { unfold range_order. vm_compute. reflexivity. }
  assert (H1 : ListByUser s "user1" [meta1; meta2]).
  { eexists. split; [exact Hit | vm_compute; reflexivity]. }
  assert (H2 : ListByUser s "user2" [meta3]).
  { eexists. split; [exact Hit | vm_compute; reflexivity]. }
  assert (H3 : ListByUser s "user3" []).
  { eexists. split; [exact Hit | vm_compute; reflexivity]. }
  destruct list_by_user_is_scan as (_ & Hscan & Hscenario).
  destruct (Hscan s "user1" _ H1) as [Hp _].
  assert (Hlen := Hscenario meta1 meta2 meta3 "user1" "user2" "user3"
                    _ _ _
                    ltac:(discriminate) ltac:(discriminate) ltac:(discriminate)
                    eq_refl eq_refl eq_refl
                    ltac:(discriminate) ltac:(discriminate) ltac:(discriminate)
                    H1 H2 H3).
  exact (conj H1 (conj H2 (conj H3 (conj Hp Hlen)))).
Defined.

(** ** The channel protocol *)

Local Close Scope Z_scope.

Section Counting.
Context {A : Type}.
Implicit Types (f : A → nat) (l : list A).

Lemma sum_nil f : sum_list_with f [] = 0.
Proof. reflexivity. Qed.

Lemma sum_cons f a l : sum_list_with f (a :: l) = f a + sum_list_with f l.
Proof. reflexivity. Qed.

Lemma sum_insert f l i x y :
  l !! i = Some y →
  sum_list_with f (<[i := x]> l) + f y = sum_list_with f l + f x.
Proof.
  revert i. induction l as [|a l IH]; intros [|i] Hi; try done.
  - injection Hi as ->. cbn [insert list_insert]. rewrite !sum_cons. lia.
  - specialize (IH i Hi).
    change (<[S i:=x]> (a :: l)) with (a :: <[i:=x]> l).
    rewrite !sum_cons. lia.
Qed.

Lemma sum_snoc f l x : sum_list_with f (l ++ [x]) = sum_list_with f l + f x.
Proof. rewrite sum_list_with_app, sum_cons, sum_nil. lia. Qed.

Lemma sum_replicate_0 f n x : f x = 0 → sum_list_with f (replicate n x) = 0.
Proof.
  intros Hx. induction n as [|n IH]; [done|].
  cbn [replicate]. rewrite sum_cons. lia.
Qed.

Lemma sum_pos_lookup f l :
  0 < sum_list_with f l → ∃ i x, l !! i = Some x ∧ 0 < f x.
Proof.
  induction l as [|a l IH]; [rewrite sum_nil; lia|].
  rewrite sum_cons. intros Hpos.
  destruct (decide (0 < f a)) as [Ha|Ha].
  - by exists 0, a.
  - destruct IH as (i & x & Hi & Hx); [lia|]. by exists (S i), x.
Qed.

Lemma sum_pos_elem f l x : x ∈ l → 0 < f x → 0 < sum_list_with f l.
Proof. intros Hx Hf. pose proof (sum_list_with_in _ f _ Hx). lia. Qed.

Lemma sum_le_1_unique f l x y :
  sum_list_with f l ≤ 1 → x ∈ l → y ∈ l → 0 < f x → 0 < f y → x = y.
Proof.
  induction l as [|a l IH]; intros Hle Hx Hy Hfx Hfy.
  - by apply elem_of_nil in Hx.
  - rewrite sum_cons in Hle. apply elem_of_cons in Hx, Hy.
    destruct Hx as [->|Hx], Hy as [->|Hy]; [done| | |apply IH; [lia|done..]].
    + pose proof (sum_list_with_in _ f _ Hy). lia.
    + pose proof (sum_list_with_in _ f _ Hx). lia.
Qed.
End Counting.

Lemma indicator_le_1 (P : Prop) `{Decision P} : indicator P ≤ 1.
Proof. unfold indicator. destruct (decide P); lia. Qed.

Lemma submit_ok_inv cap s job s' :
  submit cap s job = (SubmitOk, s') →
  length (jobs s) < cap
  ∧ s' = {| done := done s; jobs := jobs s ++ [job]; workers := workers s;
            handlers := handlers s; store := store s; chans := chans s |}.
Proof.
  unfold submit. destruct (Nat.ltb_spec (length (jobs s)) cap); [|discriminate].
  by intros [= <-].
Qed.

Ltac use_insert :=
  repeat match goal with
    | H : ?l !! ?i = Some ?y |- context [sum_list_with ?f (<[?i := ?x]> ?l)] =>
        let E := fresh "E" in
        pose proof (sum_insert f l i x y H) as E;
        generalize dependent (sum_list_with f (<[i := x]> l)); intros
    end.

Ltac use_head :=
  repeat match goal with
    | Hj : jobs ?s = _ :: _, H : context [sum_list_with _ (jobs ?s)] |- _ =>
        rewrite Hj, sum_cons in H
    end.

Ltac count :=
  cbn [handlers jobs workers chans store done set_handler set_worker];
  try match goal with
    | |- context [after_response ?k] => destruct k; cbn [after_response]
    end;
  use_head; rewrite ?sum_snoc; use_insert; rewrite ?sum_nil;
  cbn [sending receiving queued holding enqueue_of dequeue_of write_of
       new_job Result] in *;
  unfold queued, indicator in *; repeat case_decide;
  cbn [new_job Result] in *; try lia.

Lemma pipeline_inv_boot n : pipeline_inv [] (boot n).
Proof.
  split; intros; cbn [boot handlers jobs workers chans] in *;
    rewrite ?sum_nil, ?sum_replicate_0 by done.
  - unfold indicator. case_decide; lia.
  - done.
  - done.
  - done.
  - apply lookup_replicate in H as [? _]. done.
  - by apply elem_of_nil in H.
Qed.

Lemma elem_of_snoc_l {A} (x y : A) (l : list A) : x ∈ l → x ∈ l ++ [y].
Proof. intros. apply elem_of_app. by left. Qed.

Lemma elem_of_snoc_inv {A} (x y : A) (l : list A) :
  x ∈ l ++ [y] → x ∈ l ∨ x = y.
Proof.
  intros [?|Hy%list_elem_of_singleton]%elem_of_app; [by left | by right].
Qed.

Lemma held_mono (tr : list Event) ev w job meta :
  (∃ draw, EvDequeue w job draw ∈ tr ∧ TransformStage_job draw job = Some meta) →
  ∃ draw, EvDequeue w job draw ∈ tr ++ [ev]
          ∧ TransformStage_job draw job = Some meta.
Proof. intros (draw & Hin & Ht). exists draw. split; [by apply elem_of_snoc_l | done]. Qed.

Lemma written_mono (tr : list Event) ev w ch meta :
  (∃ job draw, Result job = ch ∧ EvDequeue w job draw ∈ tr
               ∧ TransformStage_job draw job = Some meta) →
  ∃ job draw, Result job = ch ∧ EvDequeue w job draw ∈ tr ++ [ev]
              ∧ TransformStage_job draw job = Some meta.
Proof.
  intros (job & draw & Hch & Hin & Ht). exists job, draw.
  split; [done | split; [by apply elem_of_snoc_l | done]].
Qed.

(** Every step keeps the invariant. *)
Lemma pipeline_inv_step cap tr s ev s' :
  pipeline_inv tr s → step cap s ev s' → pipeline_inv (tr ++ [ev]) s'.
Proof.
  intros [Hp He Hd Hr Hh Hw] Hstep.
  assert (Hwritten : ∀ w h ch meta,
             (∀ w0 h0 ch0 meta0, ev ≠ EvWrite w0 h0 ch0 meta0) →
             EvWrite w h ch meta ∈ tr ++ [ev] →
             ∃ job draw, Result job = ch ∧ EvDequeue w job draw ∈ tr ++ [ev]
                         ∧ TransformStage_job draw job = Some meta).
  { intros w h ch meta Hne [Hin|Heq]%elem_of_snoc_inv.
    - by eapply written_mono, Hw.
    - by destruct (Hne w h ch meta). }
  inversion Hstep; subst;
    try match goal with
      | H : submit _ _ _ = (SubmitOk, _) |- _ =>
          apply submit_ok_inv in H as [? ->]
      end;
    (split;
     [ intros ch; specialize (Hp ch); specialize (He ch);
       specialize (Hd ch); specialize (Hr ch); count
     | intros ch; specialize (Hp ch); specialize (He ch);
       specialize (Hd ch); specialize (Hr ch); count
     | intros ch; specialize (Hp ch); specialize (He ch);
       specialize (Hd ch); specialize (Hr ch); count
     | intros ch; specialize (Hp ch); specialize (He ch);
       specialize (Hd ch); specialize (Hr ch); count
     | cbn [workers set_worker set_handler]; intros w' job' meta' Hl
     | try (intros w' h' ch' meta' Hin;
            apply (Hwritten _ _ _ _ ltac:(intros; discriminate) Hin)) ]).
  all: try (by eapply held_mono, Hh).
  all: try match goal with
         | k : Conn |- context [after_response ?k] => destruct k
         end.
  - (* dequeue: the worker holds the job it has just taken *)
    apply list_lookup_insert_Some in Hl as [(<- & [= <- <-] & _)|[_ Hl]].
    + exists draw. split; [|done]. apply elem_of_app. right. by left.
    + by eapply held_mono, Hh.
  - (* return *)
    apply list_lookup_insert_Some in Hl as [(_ & [=] & _)|[_ Hl]].
    by eapply held_mono, Hh.
  - (* write: the worker lets go of the job *)
    apply list_lookup_insert_Some in Hl as [(_ & [=] & _)|[_ Hl]].
    by eapply held_mono, Hh.
  - (* write: the event is by the holder *)
    intros w' h' ch' meta' [Hin|[= -> -> -> ->]]%elem_of_snoc_inv.
    + by eapply written_mono, Hw.
    + destruct (Hh _ _ _ H) as (draw & Hin & Ht).
      exists job, draw. split; [done|]. split; [by apply elem_of_snoc_l | done].
Qed.

Lemma pipeline_inv_run cap n tr s : run cap (boot n) tr s → pipeline_inv tr s.
Proof.
  induction 1 as [|tr s ev s' _ IH Hstep]; [apply pipeline_inv_boot|].
  by eapply pipeline_inv_step.
Qed.

Lemma dequeue_of_self w job draw : dequeue_of (Result job) (EvDequeue w job draw) = 1.
Proof. cbn [dequeue_of]. unfold indicator. by case_decide. Qed.

Lemma write_of_self w h ch meta : write_of ch (EvWrite w h ch meta) = 1.
Proof. cbn [write_of]. unfold indicator. by case_decide. Qed.

Lemma dequeue_unique tr ch w1 job1 draw1 w2 job2 draw2 :
  sum_list_with (dequeue_of ch) tr ≤ 1 →
  EvDequeue w1 job1 draw1 ∈ tr → Result job1 = ch →
  EvDequeue w2 job2 draw2 ∈ tr → Result job2 = ch →
  w2 = w1 ∧ job2 = job1 ∧ draw2 = draw1.
Proof.
  intros Hle H1 Hc1 H2 Hc2.
  assert (Heq : EvDequeue w1 job1 draw1 = EvDequeue w2 job2 draw2).
  { subst ch.
    apply (sum_le_1_unique (dequeue_of (Result job1)) tr); try done.
    - rewrite dequeue_of_self. lia.
    - rewrite <- Hc2, dequeue_of_self. lia. }
  by injection Heq as -> -> ->.
Qed.

Lemma holding_pos ch x :
  0 < holding ch x → ∃ job meta, x = WSend job meta ∧ Result job = ch.
Proof.
  destruct x as [|job meta|]; cbn; try lia.
  unfold indicator. case_decide; [eauto | lia].
Qed.

Lemma receiving_pos ch x : 0 < receiving ch x → ∃ k, x = HRecv k ch.
Proof.
  destruct x as [|k job|k c|k meta|]; cbn; try lia.
  unfold indicator. case_decide; [subst; eauto | lia].
Qed.

(** Safety of the delivery, over the runs of any length. For every job a
    worker has dequeued: any write on the job's result channel is by that
    worker and carries the metadata computed from that job; the channel
    served one job only; one handler at most reads it; and the write either
    has taken place exactly once, or has not yet and then the worker holds
    the job, the reader is waiting and the write can be taken now. *)
Lemma dequeued_job_written_at_most_once cap n tr s w job draw :
  run cap (boot n) tr s →
  EvDequeue w job draw ∈ tr →
  let ch := Result job in
  sum_list_with (write_of ch) tr ≤ 1
  ∧ (∀ w' h meta, EvWrite w' h ch meta ∈ tr →
                  w' = w ∧ TransformStage_job draw job = Some meta)
  ∧ (∀ w1 h1 m1 w2 h2 m2,
        EvWrite w1 h1 ch m1 ∈ tr → EvWrite w2 h2 ch m2 ∈ tr →
        w1 = w2 ∧ h1 = h2 ∧ m1 = m2)
  ∧ (∀ w' job' draw', EvDequeue w' job' draw' ∈ tr → Result job' = ch →
                      w' = w ∧ job' = job ∧ draw' = draw)
  ∧ sum_list_with (enqueue_of ch) tr = 1
  ∧ sum_list_with (dequeue_of ch) tr = 1
  ∧ sum_list_with (receiving ch) (handlers s)
    + sum_list_with (write_of ch) tr = 1
  ∧ ((sum_list_with (write_of ch) tr = 1
      ∧ sum_list_with (holding ch) (workers s) = 0)
     ∨ (sum_list_with (write_of ch) tr = 0
        ∧ ∃ meta h k,
            workers s !! w = Some (WSend job meta)
            ∧ handlers s !! h = Some (HRecv k ch)
            ∧ TransformStage_job draw job = Some meta
            ∧ step cap s (EvWrite w h ch meta)
                (set_worker w WSelect (set_handler h (HSave k meta) s))
            ∧ sum_list_with (write_of ch) (tr ++ [EvWrite w h ch meta]) = 1)).
Proof.
  intros Hrun Hin ch.
  assert (Hch : Result job = ch) by reflexivity. clearbody ch.
  destruct (pipeline_inv_run _ _ _ _ Hrun) as [Hp He Hd Hr Hh Hw].
  assert (Hpos : 0 < sum_list_with (dequeue_of ch) tr).
  { eapply sum_pos_elem; [exact Hin|].
    rewrite <- Hch, dequeue_of_self. lia. }
  pose proof (Hp ch) as Hp'. pose proof (He ch) as He'.
  pose proof (Hd ch) as Hd'. pose proof (Hr ch) as Hr'.
  pose proof (indicator_le_1 (ch < chans s)) as Hone.
  assert (Huniq : ∀ w' job' draw', EvDequeue w' job' draw' ∈ tr →
                                   Result job' = ch →
                                   w' = w ∧ job' = job ∧ draw' = draw).
  { intros w' job' draw' Hin' Hch'.
    eapply (dequeue_unique tr ch); [lia|exact Hin|done|exact Hin'|exact Hch']. }
  assert (Hwr : ∀ w' h meta, EvWrite w' h ch meta ∈ tr →
                             w' = w ∧ TransformStage_job draw job = Some meta).
  { intros w' h meta Hwin.
    destruct (Hw _ _ _ _ Hwin) as (job' & draw' & Hch' & Hin' & Ht).
    destruct (Huniq _ _ _ Hin' Hch') as (-> & -> & ->). done. }
  split; [lia|]. split; [exact Hwr|]. split.
  { intros w1 h1 m1 w2 h2 m2 H1 H2.
    assert (Heq : EvWrite w1 h1 ch m1 = EvWrite w2 h2 ch m2).
    { apply (sum_le_1_unique (write_of ch) tr); try done;
        rewrite ?write_of_self; lia. }
    by injection Heq as -> -> ->. }
  split; [exact Huniq|]. split; [lia|]. split; [lia|]. split; [lia|].
  destruct (decide (sum_list_with (write_of ch) tr = 1)) as [H1|H0];
    [left; lia | right].
  split; [lia|].
  destruct (sum_pos_lookup (holding ch) (workers s)) as (w' & x & Hw' & Hx);
    [lia|].
  apply holding_pos in Hx as (job' & meta & -> & Hch').
  destruct (Hh _ _ _ Hw') as (draw' & Hin' & Ht).
  destruct (Huniq _ _ _ Hin' Hch') as (-> & -> & ->).
  destruct (sum_pos_lookup (receiving ch) (handlers s)) as (h & y & Hh' & Hy);
    [lia|].
  apply receiving_pos in Hy as (k & ->).
  exists meta, h, k. repeat split; try done.
  - subst ch. by apply step_write.
  - rewrite sum_snoc, write_of_self. lia.
Qed.

Lemma demo_run : run jobs_capacity (boot 1) demo_trace demo_state.
Proof.
  apply (run_snoc _ _ [EvUpload alice_request "id-1" 17%Z hello;
                       EvEnqueue 0 demo_job]
           {| done := false; jobs := [demo_job]; workers := [WSelect];
              handlers := [HRecv Upload 0]; store := NewMemoryStore;
              chans := 1 |}).
  - apply (run_snoc _ _ [EvUpload alice_request "id-1" 17%Z hello]
             {| done := false; jobs := []; workers := [WSelect];
                handlers := [HSend Upload demo_job]; store := NewMemoryStore;
                chans := 1 |}).
    + apply (run_snoc _ _ [] (boot 1)); [apply run_nil|].
      apply (step_upload _ (boot 1)).
    + apply (step_enqueue _
               {| done := false; jobs := []; workers := [WSelect];
                  handlers := [HSend Upload demo_job]; store := NewMemoryStore;
                  chans := 1 |} 0 Upload demo_job
               {| done := false; jobs := [demo_job]; workers := [WSelect];
                  handlers := [HSend Upload demo_job]; store := NewMemoryStore;
                  chans := 1 |}); reflexivity.
  - apply (step_dequeue _
             {| done := false; jobs := [demo_job]; workers := [WSelect];
                handlers := [HRecv Upload 0]; store := NewMemoryStore;
                chans := 1 |} 0 demo_job [] 7%Z demo_meta);
      [reflexivity | reflexivity | vm_compute; reflexivity].
Qed.

Lemma dequeued_job_written_at_most_once_demo :
  run jobs_capacity (boot 1) demo_trace demo_state
  ∧ EvDequeue 0 demo_job 7%Z ∈ demo_trace
  ∧ sum_list_with (write_of 0) demo_trace ≤ 1
  ∧ sum_list_with (enqueue_of 0) demo_trace = 1
  ∧ sum_list_with (dequeue_of 0) demo_trace = 1
  ∧ sum_list_with (receiving 0) (handlers demo_state)
    + sum_list_with (write_of 0) demo_trace = 1.
Proof.
  assert (Hin : EvDequeue 0 demo_job 7%Z ∈ demo_trace).
  { unfold demo_trace. apply list_elem_of_In. cbn. tauto. }
  destruct (dequeued_job_written_at_most_once _ _ _ _ _ _ _ demo_run Hin)
    as (H1 & _ & _ & _ & H2 & H3 & H4 & _).
  exact (conj demo_run (conj Hin (conj H1 (conj H2 (conj H3 H4))))).
Defined.

(** ** Submission and cancellation *)

Lemma submit_room cap s job :
  length (jobs s) < cap → submit cap s job = (SubmitOk, enqueued s job).
Proof.
  intros Hlt. unfold submit.
  by destruct (Nat.ltb_spec (length (jobs s)) cap); [|lia].
Qed.

Lemma submit_full cap s job :
  cap ≤ length (jobs s) → submit cap s job = (SubmitBlocked, s).
Proof.
  intros Hle. unfold submit.
  by destruct (Nat.ltb_spec (length (jobs s)) cap); [lia|].
Qed.

Lemma submit_not_shutdown cap s job : (submit cap s job).1 ≠ SubmitShutdown.
Proof. unfold submit. by destruct (_ <? _). Qed.

Lemma all_returned_step cap s ev s' :
  all_returned s → step cap s ev s' →
  all_returned s'
  ∧ (∀ w job draw, ev ≠ EvDequeue w job draw)
  ∧ (∀ w h ch meta, ev ≠ EvWrite w h ch meta)
  ∧ ∃ more, jobs s' = jobs s ++ more.
Proof.
  intros Hall Hstep.
  inversion Hstep; subst;
    try match goal with
      | H : submit _ _ _ = (SubmitOk, _) |- _ =>
          apply submit_ok_inv in H as [? ->]
      end;
    try match goal with
      | H : workers s !! _ = Some _ |- _ => by apply Hall in H
      end;
    cbn [jobs workers set_handler];
    (split; [exact Hall|]); (split; [done|]); (split; [done|]).
  all: try (exists []; by rewrite app_nil_r).
  by eexists.
Qed.

Lemma all_returned_run cap s tr s' :
  all_returned s → run cap s tr s' →
  all_returned s'
  ∧ (∀ w job draw, EvDequeue w job draw ∉ tr)
  ∧ (∀ w h ch meta, EvWrite w h ch meta ∉ tr)
  ∧ ∃ more, jobs s' = jobs s ++ more.
Proof.
  intros Hall. induction 1 as [|tr s1 ev s2 _ IH Hstep].
  - split; [done|]. split; [intros ???; apply not_elem_of_nil|].
    split; [intros ????; apply not_elem_of_nil|].
    exists []. by rewrite app_nil_r.
  - destruct IH as (Hall1 & Hd & Hw & more & Hq).
    destruct (all_returned_step _ _ _ _ Hall1 Hstep)
      as (Hall2 & Hd2 & Hw2 & more2 & Hq2).
    split; [done|].
    split; [intros w job draw [?|?]%elem_of_snoc_inv;
            [by eapply Hd | by eapply Hd2]|].
    split; [intros w h ch meta [?|?]%elem_of_snoc_inv;
            [by eapply Hw | by eapply Hw2]|].
    exists (more ++ more2). by rewrite Hq2, Hq, app_assoc.
Qed.

Lemma cancel_step_inv cap s s' :
  step cap s EvCancel s' → done s' = true ∧ jobs s' = jobs s.
Proof. by inversion 1. Qed.

(** C1, as the code has it. The submission is the bare send on [jobs]; it has
    no Shutdown result and does not look at the cancellation. Before and
    after cancellation alike it completes when the queue has room, leaving
    the job in the queue, and blocks when the queue is full; a cancellation
    leaves the outcome as it was, so it does not release a blocked
    submitter. Once every worker has returned, nothing is dequeued or
    written any more and the queue only grows: a job enqueued then is never
    processed and a blocked submitter stays blocked. *)
Theorem submit_ignores_cancellation cap s job :
  (submit cap s job).1 ≠ SubmitShutdown
  ∧ (length (jobs s) < cap → submit cap s job = (SubmitOk, enqueued s job))
  ∧ (cap ≤ length (jobs s) → submit cap s job = (SubmitBlocked, s))
  ∧ (∀ s', step cap s EvCancel s' →
           done s' = true ∧ (submit cap s' job).1 = (submit cap s job).1)
  ∧ (all_returned s →
     ∀ tr s', run cap s tr s' →
              (∀ w job' draw, EvDequeue w job' draw ∉ tr)
              ∧ (∀ w h ch meta, EvWrite w h ch meta ∉ tr)
              ∧ (cap ≤ length (jobs s) →
                 submit cap s' job = (SubmitBlocked, s'))).
Proof.
  split; [apply submit_not_shutdown|].
  split; [apply submit_room|]. split; [apply submit_full|]. split.
  - intros s' [Hd Hj]%cancel_step_inv. split; [done|].
    unfold submit. rewrite Hj. by destruct (_ <? _).
  - intros Hall tr s' Hrun.
    destruct (all_returned_run _ _ _ _ Hall Hrun) as (_ & Hd & Hw & more & Hq).
    split; [done|]. split; [done|]. intros Hfull. apply submit_full.
    rewrite Hq, length_app. lia.
Qed.

Lemma cancelled_run :
  run jobs_capacity (boot 1)
    [EvCancel; EvReturn 0; EvUpload alice_request "id-1" 17%Z hello]
    cancelled_state.
Proof.
  apply (run_snoc _ _ [EvCancel; EvReturn 0]
           {| done := true; jobs := []; workers := [WReturned];
              handlers := []; store := NewMemoryStore; chans := 0 |}).
  - apply (run_snoc _ _ [EvCancel]
             {| done := true; jobs := []; workers := [WSelect];
                handlers := []; store := NewMemoryStore; chans := 0 |}).
    + apply (run_snoc _ _ [] (boot 1)); [apply run_nil|].
      apply (step_cancel _ (boot 1)).
    + apply (step_return _
               {| done := true; jobs := []; workers := [WSelect];
                  handlers := []; store := NewMemoryStore; chans := 0 |} 0);
        reflexivity.
  - apply (step_upload _
             {| done := true; jobs := []; workers := [WReturned];
                handlers := []; store := NewMemoryStore; chans := 0 |}).
Qed.

Lemma full_run :
  run 1 (boot 0)
    [ EvUpload alice_request "id-1" 17%Z hello; EvEnqueue 0 demo_job;
      EvUpload alice_request "id-2" 18%Z hello ]
    (full_state false).
Proof.
  apply (run_snoc _ _ [EvUpload alice_request "id-1" 17%Z hello;
                       EvEnqueue 0 demo_job]
           {| done := false; jobs := [demo_job]; workers := [];
              handlers := [HRecv Upload 0]; store := NewMemoryStore;
              chans := 1 |}).
  - apply (run_snoc _ _ [EvUpload alice_request "id-1" 17%Z hello]
             {| done := false; jobs := []; workers := [];
                handlers := [HSend Upload demo_job]; store := NewMemoryStore;
                chans := 1 |}).
    + apply (run_snoc _ _ [] (boot 0)); [apply run_nil|].
      apply (step_upload _ (boot 0)).
    + apply (step_enqueue _
               {| done := false; jobs := []; workers := [];
                  handlers := [HSend Upload demo_job]; store := NewMemoryStore;
                  chans := 1 |} 0 Upload demo_job
               {| done := false; jobs := [demo_job]; workers := [];
                  handlers := [HSend Upload demo_job]; store := NewMemoryStore;
                  chans := 1 |}); reflexivity.
  - apply (step_upload _
             {| done := false; jobs := [demo_job]; workers := [];
                handlers := [HRecv Upload 0]; store := NewMemoryStore;
                chans := 1 |}).
Qed.

(** The claim of C1 fails on the code. After the cancellation, with the
    worker gone, the upload handler's submission completes: the result is ok,
    not Shutdown, and the handler goes on to wait for a result. And a
    submitter blocked on a full queue is still blocked after the
    cancellation. *)
Lemma submit_after_cancel_counterexample :
  (run jobs_capacity (boot 1)
     [EvCancel; EvReturn 0; EvUpload alice_request "id-1" 17%Z hello]
     cancelled_state
   ∧ done cancelled_state = true
   ∧ handlers cancelled_state !! 0 = Some (HSend Upload demo_job)
   ∧ submit jobs_capacity cancelled_state demo_job
     = (SubmitOk, enqueued cancelled_state demo_job)
   ∧ (submit jobs_capacity cancelled_state demo_job).1 ≠ SubmitShutdown
   ∧ step jobs_capacity cancelled_state (EvEnqueue 0 demo_job)
       (set_handler 0 (HRecv Upload 0) (enqueued cancelled_state demo_job)))
  ∧ (run 1 (boot 0)
       [ EvUpload alice_request "id-1" 17%Z hello; EvEnqueue 0 demo_job;
         EvUpload alice_request "id-2" 18%Z hello ]
       (full_state false)
     ∧ handlers (full_state false) !! 1 = Some (HSend Upload second_job)
     ∧ submit 1 (full_state false) second_job = (SubmitBlocked, full_state false)
     ∧ step 1 (full_state false) EvCancel (full_state true)
     ∧ done (full_state true) = true
     ∧ submit 1 (full_state true) second_job = (SubmitBlocked, full_state true)
     ∧ (submit 1 (full_state true) second_job).1 ≠ SubmitShutdown).
Proof.
  split.
  - split; [apply cancelled_run|]. repeat split; try done.
    apply (step_enqueue _ cancelled_state 0 Upload demo_job); reflexivity.
  - split; [apply full_run|]. repeat split; try done.
    apply (step_cancel 1 (full_state false)).
Qed.

Lemma submit_ignores_cancellation_witness :
  (submit 1 (full_state false) second_job).1 ≠ SubmitShutdown
  ∧ submit jobs_capacity cancelled_state demo_job
    = (SubmitOk, enqueued cancelled_state demo_job)
  ∧ submit 1 (full_state false) second_job = (SubmitBlocked, full_state false)
  ∧ (submit 1 (full_state true) second_job).1
    = (submit 1 (full_state false) second_job).1
  ∧ submit 1 (full_state true) second_job = (SubmitBlocked, full_state true).
Proof.
  destruct (submit_ignores_cancellation 1 (full_state false) second_job)
    as (H1 & _ & H3 & H4 & H5).
  destruct (submit_ignores_cancellation jobs_capacity cancelled_state demo_job)
    as (_ & H2 & _).
  assert (Hall : all_returned (full_state false)).
  { intros w x Hw. cbn in Hw. by rewrite lookup_nil in Hw. }
  assert (Hrun : run 1 (full_state false) [EvCancel] (full_state true)).
  { apply (run_snoc _ _ [] (full_state false)); [apply run_nil|].
    apply (step_cancel 1 (full_state false)). }
  assert (Hfull : 1 ≤ length (jobs (full_state false))) by (cbn; lia).
  assert (Hroom : length (jobs cancelled_state) < jobs_capacity)
    by (cbn; unfold jobs_capacity; lia).
  exact (conj H1 (conj (H2 Hroom) (conj (H3 Hfull)
          (conj (proj2 (H4 _ (step_cancel 1 (full_state false))))
                (proj2 (proj2 (H5 Hall _ _ Hrun)) Hfull))))).
Defined.

(** * Further properties of the code *)

(** ** The store under repeated saves *)

Lemma saves_snoc l m s : saves (l ++ [m]) s = Save m (saves l s).
Proof. unfold saves. by rewrite foldl_app. Qed.

Lemma filter_none_nil {A} (P : A → Prop) `{∀ x, Decision (P x)} (l : list A) :
  Forall (fun x => ¬ P x) l → filter P l = [].
Proof.
  induction 1 as [|x l' Hx _ IH]; [done|].
  rewrite filter_cons. by destruct (decide (P x)).
Qed.

(** X1. After any sequence of saves, [Get] at an id returns the last record
    saved under that id, with [true]; when no record of the sequence has the
    id it returns what the store held before, so on a new store the zero
    record with [false]. *)
Theorem get_after_saves l s id :
  Get id (saves l s)
  = match last (filter (fun m => Metadata.ChunkID m = id) l) with
    | Some m => (m, true)
    | None => Get id s
    end
  ∧ (Forall (fun m => Metadata.ChunkID m ≠ id) l →
     Get id (saves l NewMemoryStore) = (Metadata.zero, false)).
Proof.
  assert (Hlast : ∀ s', Get id (saves l s')
            = match last (filter (fun m => Metadata.ChunkID m = id) l) with
              | Some m => (m, true)
              | None => Get id s'
              end).
  { intros s'. induction l as [|m l IH] using rev_ind; [done|].
    rewrite saves_snoc, filter_app, filter_cons, filter_nil.
    case_decide as Hid.
    - rewrite last_snoc. subst id. apply Get_Save.
    - rewrite app_nil_r, Get_Save_ne by done. apply IH. }
  split; [apply Hlast|].
  intros Hnone. rewrite Hlast.
  rewrite (filter_none_nil _ l Hnone).
  unfold Get, NewMemoryStore. cbn. by rewrite lookup_empty.
Qed.

Lemma get_after_saves_witness :
  Get "chunk9" (saves [meta1; meta2; meta3] NewMemoryStore)
  = (Metadata.zero, false).
Proof.
  apply (get_after_saves [meta1; meta2; meta3] NewMemoryStore "chunk9").
  repeat constructor; discriminate.
Defined.

(** X2. Saves compose as updates of one key: a second save under the same
    chunk id replaces the first, whatever the first record was, and saves
    under different chunk ids can be swapped. *)
Theorem save_overwrites_and_commutes s m1 m2 :
  (Metadata.ChunkID m1 = Metadata.ChunkID m2 →
   Save m2 (Save m1 s) = Save m2 s)
  ∧ (Metadata.ChunkID m1 ≠ Metadata.ChunkID m2 →
     Save m2 (Save m1 s) = Save m1 (Save m2 s)).
Proof.
  unfold Save. cbn [metadata]. split; intros Hid; f_equal.
  - rewrite Hid. apply insert_insert_eq.
  - by apply insert_insert_ne.
Qed.

Lemma save_overwrites_and_commutes_witness :
  Save meta1 (Save meta1 NewMemoryStore) = Save meta1 NewMemoryStore
  ∧ Save meta2 (Save meta1 NewMemoryStore)
    = Save meta1 (Save meta2 NewMemoryStore).
Proof.
  split.
  - apply (proj1 (save_overwrites_and_commutes NewMemoryStore meta1 meta1)).
    reflexivity.
  - apply (proj2 (save_overwrites_and_commutes NewMemoryStore meta1 meta2)).
    discriminate.
Defined.

Lemma records_Save_fresh s m :
  metadata s !! Metadata.ChunkID m = None → records (Save m s) ≡ₚ m :: records s.
Proof.
  intros Hfresh. unfold records, Save. cbn [metadata].
  by rewrite map_to_list_insert.
Qed.

(** X3. Saving a record under a chunk id the store does not hold yet adds
    exactly that record to the listing of its user and changes no other
    user's listing. *)
Theorem list_after_fresh_save s m u before after :
  metadata s !! Metadata.ChunkID m = None →
  ListByUser s u before →
  ListByUser (Save m s) u after →
  after ≡ₚ (if decide (Metadata.UserID m = u) then m :: before else before)
  ∧ length after
    = length before + (if decide (Metadata.UserID m = u) then 1 else 0).
Proof.
  intros Hfresh Hb Ha.
  apply ListByUser_scan in Hb, Ha.
  assert (Hp : after ≡ₚ (if decide (Metadata.UserID m = u)
                         then m :: before else before)).
  { rewrite Ha. unfold linear_scan.
    rewrite (records_Save_fresh s m Hfresh), filter_cons.
    case_decide; by rewrite Hb. }
  split; [exact Hp|]. rewrite Hp. case_decide; cbn; lia.
Qed.

Lemma list_after_fresh_save_witness :
  [meta1] ≡ₚ [meta1]
  ∧ length [meta1] = length (@nil Metadata) + 1.
Proof.
  apply (list_after_fresh_save NewMemoryStore meta1 "user1" [] [meta1]).
  - reflexivity.
  - exists []. split; [unfold range_order; vm_compute|]; reflexivity.
  - exists [("chunk1", meta1)].
    split; [unfold range_order; vm_compute|]; reflexivity.
Defined.

(** X4. In a store where every record sits under its own chunk id (every
    store built by saves), a listing holds no record twice, every record in
    it belongs to the user asked for, and it is no longer than the store. *)
Theorem list_has_no_duplicates s u result :
  keyed s →
  ListByUser s u result →
  NoDup result
  ∧ Forall (fun m => Metadata.UserID m = u) result
  ∧ length result ≤ size (metadata s).
Proof.
  intros Hk Hl. apply ListByUser_scan in Hl.
  assert (Hnd : NoDup (records s)).
  { apply (NoDup_fmap_1 Metadata.ChunkID). by apply keyed_unique. }
  split; [|split].
  - rewrite Hl. unfold linear_scan. by apply NoDup_filter.
  - rewrite Hl. unfold linear_scan. apply Forall_forall.
    by intros m [? _]%list_elem_of_filter.
  - rewrite Hl. unfold linear_scan.
    etrans; [apply length_filter|].
    unfold records. by rewrite length_fmap, length_map_to_list.
Qed.

Lemma list_has_no_duplicates_witness :
  NoDup [meta1]
  ∧ Forall (fun m => Metadata.UserID m = "user1") [meta1]
  ∧ length [meta1] ≤ size (metadata (Save meta1 NewMemoryStore)).
Proof.
  apply (list_has_no_duplicates (Save meta1 NewMemoryStore) "user1" [meta1]).
  - apply keyed_Save, keyed_new.
  - exists [("chunk1", meta1)].
    split; [unfold range_order; vm_compute|]; reflexivity.
Defined.

(** ** The read handlers *)

(** X5. [handleGetChunk] answers 404 with the text Not Found exactly when the
    store holds nothing under the id, so always on a new store, and
    otherwise 200 with the JSON of the record stored there; right after
    [Save] of a record its chunk id is answered with that record. *)
Theorem get_chunk_found_or_404 s id :
  (metadata s !! id = None →
   handleGetChunk s id = http.Error "Not Found" http.StatusNotFound)
  ∧ (∀ m, metadata s !! id = Some m →
          handleGetChunk s id
          = {| http.code := http.StatusOK;
               http.content_type := "application/json";
               http.payload := http.JSON (json.Marshal (Metadata_fields m)) |})
  ∧ (http.code (handleGetChunk s id) = http.StatusOK
     ↔ is_Some (metadata s !! id))
  ∧ (∀ m, handleGetChunk (Save m s) (Metadata.ChunkID m)
          = {| http.code := http.StatusOK;
               http.content_type := "application/json";
               http.payload := http.JSON (json.Marshal (Metadata_fields m)) |})
  ∧ handleGetChunk NewMemoryStore id
    = http.Error "Not Found" http.StatusNotFound.
Proof.
  unfold handleGetChunk. split; [|split; [|split; [|split]]].
  - intros Hnone. unfold Get. by rewrite Hnone.
  - intros m Hm. unfold Get. by rewrite Hm.
  - unfold Get. split.
    + destruct (metadata s !! id); [eauto | discriminate].
    + intros [m Hm]. by rewrite Hm.
  - intros m. by rewrite Get_Save.
  - unfold Get, NewMemoryStore. cbn [metadata]. by rewrite lookup_empty.
Qed.

Lemma get_chunk_found_or_404_witness :
  handleGetChunk (Save meta1 NewMemoryStore) "chunk2"
  = http.Error "Not Found" http.StatusNotFound
  ∧ http.code (handleGetChunk (Save meta1 NewMemoryStore) "chunk1")
    = http.StatusOK.
Proof.
  destruct (get_chunk_found_or_404 (Save meta1 NewMemoryStore) "chunk2")
    as (Hnone & _).
  destruct (get_chunk_found_or_404 (Save meta1 NewMemoryStore) "chunk1")
    as (_ & _ & Hcode & _).
  split.
  - apply Hnone. vm_compute. reflexivity.
  - apply Hcode. exists meta1. vm_compute. reflexivity.
Defined.

Lemma linear_scan_nil s u :
  linear_scan u s = []
  ↔ ∀ id m, metadata s !! id = Some m → Metadata.UserID m ≠ u.
Proof.
  split.
  - intros Hnil id m Hm Hu.
    assert (Hin : m ∈ linear_scan u s) by (apply elem_of_linear_scan; eauto).
    rewrite Hnil in Hin. by apply elem_of_nil in Hin.
  - intros Hnone. destruct (linear_scan u s) as [|m l] eqn:Hl; [done|].
    assert (Hin : m ∈ linear_scan u s) by (rewrite Hl; left).
    apply elem_of_linear_scan in Hin as (id & Hm & Hu).
    by destruct (Hnone id m Hm).
Qed.

(** X6. [handleGetUserSessions] always answers 200 with JSON. Its body is
    the JSON [null], not an empty array, exactly when the store holds no
    record of the user; when the store holds a record of the user the body
    is an array, not empty, of the JSON of the user's records, each stored
    record once, in some order. *)
Theorem user_sessions_null_or_array s u resp :
  handleGetUserSessions s u resp →
  http.code resp = http.StatusOK
  ∧ http.content_type resp = "application/json"
  ∧ (http.payload resp = http.JSONNull
     ↔ ∀ id m, metadata s !! id = Some m → Metadata.UserID m ≠ u)
  ∧ ((∃ id m, metadata s !! id = Some m ∧ Metadata.UserID m = u) →
     ∃ result,
       result ≠ []
       ∧ result ≡ₚ linear_scan u s
       ∧ http.payload resp
         = http.JSONArray
             ((fun m => json.Marshal (Metadata_fields m)) <$> result))
  ∧ (∀ items, http.payload resp = http.JSONArray items →
       items ≠ []
       ∧ ∃ result, items = (fun m => json.Marshal (Metadata_fields m)) <$> result
                   ∧ result ≡ₚ linear_scan u s).
Proof.
  intros (result & Hl & ->). cbn [http.code http.payload http.content_type].
  apply ListByUser_scan in Hl. split; [done|]. split; [done|].
  split; [|split].
  - rewrite <- linear_scan_nil. destruct result as [|m l]; cbn.
    + split; [|done]. intros _. symmetry in Hl.
      by apply Permutation_nil_r in Hl.
    + split; [done|]. intros Hnil. rewrite Hnil in Hl.
      by apply Permutation_nil_r in Hl.
  - intros (id & m & Hm & Hu).
    assert (Hin : m ∈ linear_scan u s) by (apply elem_of_linear_scan; eauto).
    rewrite <- Hl in Hin. destruct result as [|m0 l].
    + by apply elem_of_nil in Hin.
    + by exists (m0 :: l).
  - intros items. destruct result as [|m l]; cbn; [done|].
    intros [= <-]. split; [done|]. by exists (m :: l).
Qed.

Lemma user_sessions_null_or_array_witness :
  (∀ id m, metadata (Save meta1 NewMemoryStore) !! id = Some m →
           Metadata.UserID m ≠ "user3")
  ∧ ∃ result,
      result ≠ []
      ∧ result ≡ₚ linear_scan "user1" (Save meta1 NewMemoryStore)
      ∧ http.JSONArray [json.Marshal (Metadata_fields meta1)]
        = http.JSONArray
            ((fun m => json.Marshal (Metadata_fields m)) <$> result).
Proof.
  assert (Hit : range_order (Save meta1 NewMemoryStore) [("chunk1", meta1)]).
  { unfold range_order. vm_compute. reflexivity. }
  assert (H3 : handleGetUserSessions (Save meta1 NewMemoryStore) "user3"
                 {| http.code := http.StatusOK;
                    http.content_type := "application/json";
                    http.payload := http.JSONNull |}).
  { exists []. split; [|reflexivity].
    exists [("chunk1", meta1)]. split; [exact Hit | reflexivity]. }
  assert (H1 : handleGetUserSessions (Save meta1 NewMemoryStore) "user1"
                 {| http.code := http.StatusOK;
                    http.content_type := "application/json";
                    http.payload :=
                      http.JSONArray [json.Marshal (Metadata_fields meta1)] |}).
  { exists [meta1]. split; [|reflexivity].
    exists [("chunk1", meta1)]. split; [exact Hit | reflexivity]. }
  destruct (user_sessions_null_or_array _ _ _ H3) as (_ & _ & Hn & _).
  destruct (user_sessions_null_or_array _ _ _ H1) as (_ & _ & _ & Harr & _).
  split; [exact (proj1 Hn eq_refl)|].
  apply Harr. exists "chunk1", meta1. split; vm_compute; reflexivity.
Defined.

(** ** The upload buffer *)

(** X7. The payload of an upload. A negative [ContentLength] (a body of
    unknown length) and a [ContentLength] above what the runtime allocates
    both stop the handler in [make]. In between, the payload has exactly
    [ContentLength] bytes, whatever the one [Read] delivered: the bytes read
    from the front of the body followed by zero bytes; it is the body itself
    when the body has [ContentLength] bytes and the read delivered them
    all. *)
Theorem upload_payload_shape limit declared content n :
  ((declared < 0)%Z → handleUpload_data limit declared content n = None)
  ∧ ((limit < declared)%Z → handleUpload_data limit declared content n = None)
  ∧ ((0 ≤ declared ≤ limit)%Z →
     let k := Nat.min n (Nat.min (length content) (Z.to_nat declared)) in
     ∃ data,
       handleUpload_data limit declared content n = Some data
       ∧ length data = Z.to_nat declared
       ∧ data = take k content ++ replicate (Z.to_nat declared - k) x00
       ∧ (length content = Z.to_nat declared → length content ≤ n →
          data = content))
  ∧ (is_Some (handleUpload_data limit declared content n)
     ↔ (0 ≤ declared ≤ limit)%Z).
Proof.
  unfold handleUpload_data, make_bytes.
  destruct (Z.ltb_spec declared 0) as [Hneg|Hnn];
    destruct (Z.ltb_spec limit declared) as [Hbig|Hfit];
    cbn [orb mbind option_bind].
  1-3: (split; [done|]; split; [done|]; split; [intros; lia|];
        split; [by intros [? [=]] | intros; lia]).
  split; [intros; lia|]. split; [intros; lia|]. split; [|split; [lia|eauto]].
  intros _. unfold Body_Read. rewrite length_replicate.
  set (k := Nat.min n (Nat.min (length content) (Z.to_nat declared))).
  assert (Hk : k ≤ length content ∧ k ≤ Z.to_nat declared) by (unfold k; lia).
  eexists. split; [reflexivity|].
  rewrite drop_replicate. split; [|split].
  - rewrite length_app, length_take, length_replicate. lia.
  - done.
  - intros Hlen Hn. assert (k = length content) as -> by (unfold k; lia).
    rewrite firstn_all, Hlen, Nat.sub_diag. apply app_nil_r.
Qed.

Lemma upload_payload_shape_witness :
  handleUpload_data 1024 (-1) hello 5 = None
  ∧ handleUpload_data 1024 9223372036854775807 hello 5 = None
  ∧ ∃ data, handleUpload_data 1024 5 hello 2 = Some data ∧ length data = 5.
Proof.
  destruct (upload_payload_shape 1024 (-1) hello 5) as [Hneg _].
  destruct (upload_payload_shape 1024 9223372036854775807 hello 5)
    as (_ & Hbig & _).
  destruct (upload_payload_shape 1024 5 hello 2) as (_ & _ & Hfit & _).
  split; [apply Hneg; lia|]. split; [apply Hbig; lia|].
  destruct (Hfit ltac:(lia)) as (data & Hd & Hlen & _).
  exists data. split; [exact Hd | exact Hlen].
Defined.

(** ** The queue *)

Lemma enqueued_jobs_snoc tr ev :
  enqueued_jobs (tr ++ [ev])
  = enqueued_jobs tr
    ++ match ev with EvEnqueue _ job => [job] | _ => [] end.
Proof. unfold enqueued_jobs. rewrite omap_app. by destruct ev. Qed.

Lemma dequeued_jobs_snoc tr ev :
  dequeued_jobs (tr ++ [ev])
  = dequeued_jobs tr
    ++ match ev with EvDequeue _ job _ => [job] | _ => [] end.
Proof. unfold dequeued_jobs. rewrite omap_app. by destruct ev. Qed.

Lemma run_fifo cap n tr s :
  run cap (boot n) tr s → enqueued_jobs tr = dequeued_jobs tr ++ jobs s.
Proof.
  induction 1 as [|tr s ev s' _ IH Hstep]; [done|].
  rewrite enqueued_jobs_snoc, dequeued_jobs_snoc.
  inversion Hstep; subst;
    try match goal with
      | H : submit _ _ _ = (SubmitOk, _) |- _ =>
          apply submit_ok_inv in H as [? ->]
      end;
    cbn [jobs set_handler set_worker]; rewrite ?app_nil_r; try done.
  - by rewrite IH, app_assoc.
  - rewrite IH. match goal with H : jobs _ = _ |- _ => rewrite H end.
    by rewrite <- app_assoc.
Qed.

(** X9. The queue is first in, first out: in every run the jobs sent on
    [jobs], in the order of the sends, are the jobs the workers have
    received, in the order of the receives, followed by the jobs still
    queued. So the workers take jobs in submission order, take none that was
    not submitted, and take none twice. *)
Theorem jobs_dequeued_in_submission_order cap n tr s :
  run cap (boot n) tr s →
  enqueued_jobs tr = dequeued_jobs tr ++ jobs s
  ∧ dequeued_jobs tr `prefix_of` enqueued_jobs tr
  ∧ length (dequeued_jobs tr) + length (jobs s) = length (enqueued_jobs tr).
Proof.
  intros Hrun. pose proof (run_fifo _ _ _ _ Hrun) as Heq.
  split; [done|]. split; [by exists (jobs s)|].
  by rewrite Heq, length_app.
Qed.

Lemma jobs_dequeued_in_submission_order_witness :
  enqueued_jobs demo_trace = dequeued_jobs demo_trace ++ jobs demo_state
  ∧ dequeued_jobs demo_trace `prefix_of` enqueued_jobs demo_trace
  ∧ length (dequeued_jobs demo_trace) + length (jobs demo_state)
    = length (enqueued_jobs demo_trace).
Proof. exact (jobs_dequeued_in_submission_order _ _ _ _ demo_run). Defined.

Lemma sum_le_length {A} (f : A → nat) (l : list A) :
  (∀ x, f x ≤ 1) → sum_list_with f l ≤ length l.
Proof.
  intros Hf. induction l as [|a l IH]; [done|].
  rewrite sum_cons. cbn [length]. specialize (Hf a). lia.
Qed.

Lemma busy_le_1 x : busy x ≤ 1.
Proof. destruct x; cbn; lia. Qed.

(** X10. Back-pressure. In every run on a queue of capacity [cap] with [n]
    workers, the queue never holds more than [cap] jobs, the number of
    workers stays [n], and the handlers that are past their send and wait
    for a result are as many as the queued jobs plus the jobs held by
    workers, so never more than [cap + n]. *)
Theorem queue_bounded cap n tr s :
  run cap (boot n) tr s →
  length (jobs s) ≤ cap
  ∧ length (workers s) = n
  ∧ sum_list_with waiting (handlers s)
    = length (jobs s) + sum_list_with busy (workers s)
  ∧ sum_list_with waiting (handlers s) ≤ cap + n.
Proof.
  intros Hrun.
  enough (H : length (jobs s) ≤ cap ∧ length (workers s) = n
              ∧ sum_list_with waiting (handlers s)
                = length (jobs s) + sum_list_with busy (workers s)).
  { destruct H as (Hq & Hw & Hc). repeat split; try done.
    pose proof (sum_le_length busy (workers s) busy_le_1). lia. }
  induction Hrun as [|tr s ev s' _ (Hq & Hw & Hc) Hstep].
  { cbn [boot jobs workers handlers]. rewrite length_replicate, sum_nil.
    rewrite sum_replicate_0 by done. cbn. lia. }
  inversion Hstep; subst;
    try match goal with
      | H : submit _ _ _ = (SubmitOk, _) |- _ =>
          apply submit_ok_inv in H as [? ->]
      end;
    cbn [jobs workers handlers set_handler set_worker];
    try match goal with
      | |- context [after_response ?k] => destruct k; cbn [after_response]
      end;
    try match goal with
      | H : jobs ?s = _ :: _ |- _ => rewrite H in *; cbn [length] in *
      end;
    rewrite ?sum_snoc, ?length_insert, ?length_app; use_insert;
    cbn [waiting busy length] in *; lia.
Qed.

Lemma queue_bounded_witness :
  length (jobs demo_state) ≤ jobs_capacity
  ∧ length (workers demo_state) = 1
  ∧ sum_list_with waiting (handlers demo_state)
    = length (jobs demo_state) + sum_list_with busy (workers demo_state)
  ∧ sum_list_with waiting (handlers demo_state) ≤ jobs_capacity + 1.
Proof. exact (queue_bounded _ _ _ _ demo_run). Defined.

(** ** Delivery: who gets which result, and what reaches the store *)

Lemma delivery_inv_boot n : delivery_inv [] (boot n).
Proof.
  split; cbn [boot handlers store NewMemoryStore metadata].
  - intros h k ch H. by rewrite lookup_nil in H.
  - intros h k meta H. by rewrite lookup_nil in H.
  - intros w h ch meta H. by apply elem_of_nil in H.
  - intros h body H. by apply elem_of_nil in H.
  - intros id m H. by rewrite lookup_empty in H.
Qed.

Lemma sent_mono (tr : list Event) ev h ch :
  (∃ job, EvEnqueue h job ∈ tr ∧ Result job = ch) →
  ∃ job, EvEnqueue h job ∈ tr ++ [ev] ∧ Result job = ch.
Proof. intros (job & Hin & Hch). exists job. split; [by apply elem_of_snoc_l | done]. Qed.

Lemma got_mono (tr : list Event) ev h meta :
  (∃ w ch, EvWrite w h ch meta ∈ tr) →
  ∃ w ch, EvWrite w h ch meta ∈ tr ++ [ev].
Proof. intros (w & ch & Hin). exists w, ch. by apply elem_of_snoc_l. Qed.

Lemma stored_mono (tr : list Event) ev id m :
  (Metadata.ChunkID m = id ∧ ∃ w h ch, EvWrite w h ch m ∈ tr) →
  Metadata.ChunkID m = id ∧ ∃ w h ch, EvWrite w h ch m ∈ tr ++ [ev].
Proof.
  intros (Hid & w & h & ch & Hin). split; [done|].
  exists w, h, ch. by apply elem_of_snoc_l.
Qed.

Ltac lookup_cases H :=
  cbn [handlers workers store set_handler set_worker] in H;
  first [ apply list_lookup_insert_Some in H as [(<- & H & _)|[_ H]]
        | apply lookup_snoc_Some in H as [[_ H]|[_ H]]
        | idtac ].

Lemma delivery_inv_step cap tr s ev s' :
  delivery_inv tr s → step cap s ev s' → delivery_inv (tr ++ [ev]) s'.
Proof.
  intros [Hr Hs Hw Hp Hst] Hstep.
  assert (Hresp : ∀ h body meta,
             store s' = store s ∨ store s' = Save meta (store s) →
             EvRespond h body ∈ tr →
             ∃ k meta w ch, body = response k meta
                            ∧ EvWrite w h ch meta ∈ tr ++ [ev]
                            ∧ is_Some (metadata (store s')
                                         !! Metadata.ChunkID meta)).
  { intros h body meta0 Hstore Hin.
    destruct (Hp _ _ Hin) as (k & meta & w & ch & -> & Hwin & Hsome).
    exists k, meta, w, ch. split; [done|]. split; [by apply elem_of_snoc_l|].
    destruct Hstore as [->| ->]; [done|].
    unfold Save. cbn [metadata]. apply lookup_insert_is_Some'. by right. }
  inversion Hstep; subst;
    try match goal with
      | H : submit _ _ _ = (SubmitOk, _) |- _ =>
          apply submit_ok_inv in H as [? ->]
      end;
    (split;
     [ intros h' k' ch' Hl; lookup_cases Hl; try discriminate Hl;
       try (by eapply sent_mono, Hr);
       try (match goal with k : Conn |- _ => by destruct k end)
     | intros h' k' meta' Hl; lookup_cases Hl; try discriminate Hl;
       try (by eapply got_mono, Hs);
       try (match goal with k : Conn |- _ => by destruct k end)
     | intros w' h' ch' meta' [Hin|Heq]%elem_of_snoc_inv;
       [by eapply sent_mono, Hw | try discriminate Heq]
     | intros h' body' [Hin|Heq]%elem_of_snoc_inv;
       [ first [ by (eapply (Hresp _ _ Metadata.zero); [by left | done])
               | by (eapply Hresp; [by right | done]) ]
       | try discriminate Heq ]
     | intros id' m' Hl; cbn [store set_handler set_worker] in Hl;
       try (by eapply stored_mono, Hst) ]).
  - (* enqueue: the handler now waits on the channel of the job it sent *)
    injection Hl as <- <-. exists job. split; [|done].
    apply elem_of_app. right. by left.
  - (* write: the handler holds what was written *)
    injection Hl as <- <-. exists w, (Result job).
    apply elem_of_app. right. by left.
  - (* write: the reader had sent a job with this channel *)
    injection Heq as -> -> -> ->. by eapply sent_mono, Hr.
  - (* respond: the response is what the handler held, and it is stored *)
    injection Heq as -> ->.
    destruct (Hs _ _ _ H) as (w & ch & Hwin).
    exists k, meta, w, ch. split; [done|].
    split; [by apply elem_of_snoc_l|].
    cbn [store]. unfold Save. cbn [metadata]. rewrite lookup_insert_eq. eauto.
  - (* respond: the record saved was written to this handler *)
    unfold Save in Hl. cbn [metadata] in Hl.
    apply lookup_insert_Some in Hl as [[<- <-]|[_ Hl]].
    + split; [done|]. destruct (Hs _ _ _ H) as (w & ch & Hwin).
      exists w, h, ch. by apply elem_of_snoc_l.
    + by eapply stored_mono, Hst.
Qed.

Lemma delivery_inv_run cap n tr s : run cap (boot n) tr s → delivery_inv tr s.
Proof.
  induction 1 as [|tr s ev s' _ IH Hstep]; [apply delivery_inv_boot|].
  by eapply delivery_inv_step.
Qed.

Lemma elem_of_enqueued_jobs tr job :
  job ∈ enqueued_jobs tr ↔ ∃ h, EvEnqueue h job ∈ tr.
Proof.
  unfold enqueued_jobs. rewrite list_elem_of_omap. split.
  - intros ([] & Hin & Heq); try discriminate. injection Heq as ->. eauto.
  - intros (h & Hin). by exists (EvEnqueue h job).
Qed.

Lemma elem_of_dequeued_jobs tr job :
  job ∈ dequeued_jobs tr ↔ ∃ w draw, EvDequeue w job draw ∈ tr.
Proof.
  unfold dequeued_jobs. rewrite list_elem_of_omap. split.
  - intros ([] & Hin & Heq); try discriminate. injection Heq as ->. eauto.
  - intros (w & draw & Hin). by exists (EvDequeue w job draw).
Qed.

Lemma enqueue_of_self h job : enqueue_of (Result job) (EvEnqueue h job) = 1.
Proof. cbn [enqueue_of]. unfold indicator. by case_decide. Qed.

Lemma enqueues_le_1 tr s ch :
  pipeline_inv tr s → sum_list_with (enqueue_of ch) tr ≤ 1.
Proof.
  intros [Hp He Hd _ _ _]. specialize (Hp ch). specialize (He ch).
  specialize (Hd ch). pose proof (indicator_le_1 (ch < chans s)). lia.
Qed.

Lemma enqueue_unique tr s h1 job1 h2 job2 :
  pipeline_inv tr s →
  EvEnqueue h1 job1 ∈ tr → EvEnqueue h2 job2 ∈ tr →
  Result job1 = Result job2 → h1 = h2 ∧ job1 = job2.
Proof.
  intros Hinv H1 H2 Hch.
  assert (Heq : EvEnqueue h1 job1 = EvEnqueue h2 job2).
  { apply (sum_le_1_unique (enqueue_of (Result job1)) tr); try done.
    - by eapply enqueues_le_1.
    - rewrite enqueue_of_self. lia.
    - rewrite Hch, enqueue_of_self. lia. }
  by injection Heq as -> ->.
Qed.

(** The result a handler reads is that of the job it sent. *)
Lemma write_correlated cap n tr s w h ch meta :
  run cap (boot n) tr s →
  EvWrite w h ch meta ∈ tr →
  ∃ job draw, EvEnqueue h job ∈ tr ∧ EvDequeue w job draw ∈ tr
              ∧ Result job = ch ∧ TransformStage_job draw job = Some meta.
Proof.
  intros Hrun Hin.
  pose proof (pipeline_inv_run _ _ _ _ Hrun) as Hinv.
  pose proof (delivery_inv_run _ _ _ _ Hrun) as Hdel.
  destruct (inv_written _ _ Hinv _ _ _ _ Hin) as (job & draw & Hch & Hdeq & Ht).
  destruct (del_write _ _ Hdel _ _ _ _ Hin) as (job0 & Henq0 & Hch0).
  assert (Henq : ∃ h', EvEnqueue h' job ∈ tr).
  { apply elem_of_enqueued_jobs. rewrite (run_fifo _ _ _ _ Hrun).
    apply elem_of_app. left. apply elem_of_dequeued_jobs. eauto. }
  destruct Henq as (h' & Henq).
  destruct (enqueue_unique _ _ _ _ _ _ Hinv Henq0 Henq) as [-> ->];
    [congruence|].
  by exists job, draw.
Qed.

(** X11. Each submitter gets its own result. In every run, a value read
    from a result channel by a handler is the metadata that a worker
    computed from the job this same handler had sent, on the channel of that
    job; so its chunk id, user, session and timestamp are those of the
    handler's own chunk. *)
Theorem result_goes_to_its_submitter cap n tr s w h ch meta :
  run cap (boot n) tr s →
  EvWrite w h ch meta ∈ tr →
  ∃ job draw,
    EvEnqueue h job ∈ tr
    ∧ EvDequeue w job draw ∈ tr
    ∧ Result job = ch
    ∧ TransformStage_job draw job = Some meta
    ∧ Metadata.ChunkID meta = AudioChunk.ChunkID (Chunk job)
    ∧ Metadata.UserID meta = AudioChunk.UserID (Chunk job)
    ∧ Metadata.SessionID meta = AudioChunk.SessionID (Chunk job)
    ∧ Metadata.Timestamp meta = AudioChunk.Timestamp (Chunk job).
Proof.
  intros Hrun Hin.
  destruct (write_correlated _ _ _ _ _ _ _ _ Hrun Hin)
    as (job & draw & Henq & Hdeq & Hch & Ht).
  exists job, draw. repeat (split; [done|]).
  rewrite TransformStage_job_eq in Ht. by injection Ht as <-.
Qed.

(** ** A whole upload, from the request to the response *)

Lemma upload_run : run jobs_capacity (boot 1) upload_trace upload_state.
Proof.
  apply (run_snoc _ _ (demo_trace ++ [EvWrite 0 0 0 demo_meta])
           {| done := false; jobs := []; workers := [WSelect];
              handlers := [HSave Upload demo_meta]; store := NewMemoryStore;
              chans := 1 |}).
  - apply (run_snoc _ _ demo_trace demo_state); [apply demo_run|].
    apply (step_write _ demo_state 0 0 Upload demo_job demo_meta); reflexivity.
  - apply (step_respond _
             {| done := false; jobs := []; workers := [WSelect];
                handlers := [HSave Upload demo_meta]; store := NewMemoryStore;
                chans := 1 |} 0 Upload demo_meta).
    reflexivity.
Qed.

Lemma result_goes_to_its_submitter_witness :
  ∃ job draw,
    EvEnqueue 0 job ∈ upload_trace
    ∧ EvDequeue 0 job draw ∈ upload_trace
    ∧ Result job = 0
    ∧ TransformStage_job draw job = Some demo_meta
    ∧ Metadata.ChunkID demo_meta = AudioChunk.ChunkID (Chunk job)
    ∧ Metadata.UserID demo_meta = AudioChunk.UserID (Chunk job)
    ∧ Metadata.SessionID demo_meta = AudioChunk.SessionID (Chunk job)
    ∧ Metadata.Timestamp demo_meta = AudioChunk.Timestamp (Chunk job).
Proof.
  apply (result_goes_to_its_submitter _ _ _ _ 0 0 0 demo_meta upload_run).
  apply list_elem_of_In. cbn. tauto.
Defined.

(** X12. What the store holds. In every run, a record found in the store
    sits under its own chunk id and is the metadata computed from a job that
    some handler submitted; in particular its transcript is Hello World and
    its checksum is the SHA-256 of that job's payload. Nothing else ever
    reaches the store. *)
Theorem store_holds_transformed_submissions cap n tr s id m :
  run cap (boot n) tr s →
  metadata (store s) !! id = Some m →
  Metadata.ChunkID m = id
  ∧ Metadata.Transcript m = "Hello World"
  ∧ ∃ h job draw,
      EvEnqueue h job ∈ tr
      ∧ TransformStage_job draw job = Some m
      ∧ Metadata.Checksum m
        = fmt.Sprintf_x (sha256.Sum256 (AudioChunk.Data (Chunk job))).
Proof.
  intros Hrun Hm.
  pose proof (delivery_inv_run _ _ _ _ Hrun) as Hdel.
  destruct (del_store _ _ Hdel _ _ Hm) as (Hid & w & h & ch & Hin).
  destruct (write_correlated _ _ _ _ _ _ _ _ Hrun Hin)
    as (job & draw & Henq & _ & _ & Ht).
  split; [done|].
  pose proof Ht as Ht'. rewrite TransformStage_job_eq in Ht'.
  injection Ht' as <-. split; [done|]. by exists h, job, draw.
Qed.

Lemma store_holds_transformed_submissions_witness :
  Metadata.ChunkID demo_meta = "id-1"
  ∧ Metadata.Transcript demo_meta = "Hello World"
  ∧ ∃ h job draw,
      EvEnqueue h job ∈ upload_trace
      ∧ TransformStage_job draw job = Some demo_meta
      ∧ Metadata.Checksum demo_meta
        = fmt.Sprintf_x (sha256.Sum256 (AudioChunk.Data (Chunk job))).
Proof.
  apply (store_holds_transformed_submissions _ _ _ _ "id-1" demo_meta
           upload_run).
  vm_compute. reflexivity.
Defined.

(** X13. What a caller is told. In every run, each response a handler has
    sent is the encoding of the metadata computed from the job this handler
    submitted, and from then on [handleGetChunk] finds its chunk id: the
    answer for it is 200, never 404. *)
Theorem response_is_own_and_stored cap n tr s h body :
  run cap (boot n) tr s →
  EvRespond h body ∈ tr →
  ∃ k meta job draw,
    body = response k meta
    ∧ EvEnqueue h job ∈ tr
    ∧ TransformStage_job draw job = Some meta
    ∧ http.code (handleGetChunk (store s) (Metadata.ChunkID meta))
      = http.StatusOK.
Proof.
  intros Hrun Hin.
  pose proof (delivery_inv_run _ _ _ _ Hrun) as Hdel.
  destruct (del_respond _ _ Hdel _ _ Hin)
    as (k & meta & w & ch & -> & Hwin & [m Hm]).
  destruct (write_correlated _ _ _ _ _ _ _ _ Hrun Hwin)
    as (job & draw & Henq & _ & _ & Ht).
  exists k, meta, job, draw. repeat (split; [done|]).
  unfold handleGetChunk, Get. by rewrite Hm.
Qed.

Lemma response_is_own_and_stored_witness :
  ∃ k meta job draw,
    handleUpload_response demo_meta = response k meta
    ∧ EvEnqueue 0 job ∈ upload_trace
    ∧ TransformStage_job draw job = Some meta
    ∧ http.code (handleGetChunk (store upload_state) (Metadata.ChunkID meta))
      = http.StatusOK.
Proof.
  apply (response_is_own_and_stored _ _ _ _ 0 _ upload_run).
  apply list_elem_of_In. cbn. tauto.
Defined.

(** ** Cancellation and the end of a goroutine *)

Lemma cancel_inv_run cap n tr s :
  run cap (boot n) tr s →
  (done s = true ↔ EvCancel ∈ tr)
  ∧ (∀ w, workers s !! w = Some WReturned ↔ EvReturn w ∈ tr).
Proof.
  induction 1 as [|tr s ev s' _ (Hd & Hw) Hstep].
  { split.
    - cbn. split; [discriminate | by intros ?%elem_of_nil].
    - intros w. cbn [boot workers]. split.
      + by intros [[=] _]%lookup_replicate.
      + by intros ?%elem_of_nil. }
  assert (Hnew : ∀ w x, workers s !! w = Some x → x ≠ WReturned →
                        EvReturn w ∉ tr).
  { intros w x Hx Hne Hin. apply Hw in Hin. congruence. }
  inversion Hstep; subst;
    try match goal with
      | H : submit _ _ _ = (SubmitOk, _) |- _ =>
          apply submit_ok_inv in H as [? ->]
      end;
    cbn [done workers set_handler set_worker]; (split; [|intros w']).
  all: rewrite elem_of_app, list_elem_of_singleton.
  all: try (rewrite Hd; split; [by left | by intros [?|[=]]]).
  all: try (rewrite <- Hw; split; [by left | by intros [?|[=]]]).
  - split; [by right | done].
  - (* dequeue *)
    rewrite list_lookup_insert_Some, <- Hw. split.
    + intros [(_ & [=] & _)|[_ ?]]. by left.
    + intros [Hr|[=]]. right. split; [congruence | done].
  - (* return *)
    rewrite list_lookup_insert_Some, <- Hw. split.
    + intros [(<- & _)|[_ ?]]; [by right | by left].
    + intros [Hr|[= <-]].
      * destruct (decide (w = w')) as [<-|]; [congruence | by right].
      * left. split; [done|]. split; [done|]. by eapply lookup_lt_Some.
  - (* write *)
    rewrite list_lookup_insert_Some, <- Hw. split.
    + intros [(_ & [=] & _)|[_ ?]]. by left.
    + intros [Hr|[=]]. right. split; [congruence | done].
Qed.

(** X14. A worker leaves only through the cancellation. In every run the
    context is done exactly when a cancellation took place, it never becomes
    undone, and a worker has returned exactly when its return event took
    place; a return is always preceded by the cancellation, so without one
    no worker ever stops. *)
Theorem worker_returns_only_after_cancel cap n tr s :
  run cap (boot n) tr s →
  (done s = true ↔ EvCancel ∈ tr)
  ∧ (∀ w, workers s !! w = Some WReturned ↔ EvReturn w ∈ tr)
  ∧ (∀ w, EvReturn w ∈ tr → EvCancel ∈ tr)
  ∧ (EvCancel ∉ tr → ∀ w x, workers s !! w = Some x → x ≠ WReturned).
Proof.
  intros Hrun. destruct (cancel_inv_run _ _ _ _ Hrun) as [Hd Hw].
  split; [done|]. split; [done|].
  assert (Hret : ∀ w, EvReturn w ∈ tr → EvCancel ∈ tr).
  { clear Hd Hw. induction Hrun as [|tr s ev s' Hrun IH Hstep].
    - by intros w ?%elem_of_nil.
    - intros w [Hin|Heq]%elem_of_snoc_inv.
      + apply elem_of_snoc_l. by eapply IH.
      + subst ev. inversion Hstep; subst. apply elem_of_snoc_l.
        by apply (cancel_inv_run _ _ _ _ Hrun). }
  split; [done|].
  intros Hno w x Hx ->. apply Hw in Hx. by apply Hret in Hx.
Qed.

Lemma worker_returns_only_after_cancel_witness :
  (done demo_state = true ↔ EvCancel ∈ demo_trace)
  ∧ ∀ w x, workers demo_state !! w = Some x → x ≠ WReturned.
Proof.
  destruct (worker_returns_only_after_cancel _ _ _ _ demo_run)
    as (Hd & _ & _ & Hno).
  split; [exact Hd|]. apply Hno.
  intros Hin. apply list_elem_of_In in Hin. cbn in Hin.
  repeat destruct Hin as [Hin|Hin]; try discriminate Hin. done.
Defined.

(** ** Progress of a worker *)

Lemma holding_self job meta : holding (Result job) (WSend job meta) = 1.
Proof. cbn [holding]. unfold indicator. by destruct (decide _). Qed.

(** X16. A worker that has not returned is never stuck while a job is
    queued: in every run, if it is at the [select] it can receive the job at
    the head of the queue, whatever the random draw, and if it is at its
    send on a result channel the handler that reads this channel is waiting,
    so the send can complete. *)
Theorem live_worker_can_step cap n tr s w x :
  run cap (boot n) tr s →
  workers s !! w = Some x →
  (∀ job meta, x = WSend job meta →
     ∃ h k, handlers s !! h = Some (HRecv k (Result job))
            ∧ step cap s (EvWrite w h (Result job) meta)
                (set_worker w WSelect (set_handler h (HSave k meta) s)))
  ∧ (x = WSelect → ∀ job rest draw, jobs s = job :: rest →
     ∃ s', step cap s (EvDequeue w job draw) s')
  ∧ (x ≠ WReturned → jobs s ≠ [] →
     ∃ ev s', step cap s ev s' ∧ by_worker w ev).
Proof.
  intros Hrun Hx.
  pose proof (pipeline_inv_run _ _ _ _ Hrun) as Hinv.
  assert (Hsend : ∀ job meta, x = WSend job meta →
            ∃ h k, handlers s !! h = Some (HRecv k (Result job))
                   ∧ step cap s (EvWrite w h (Result job) meta)
                       (set_worker w WSelect (set_handler h (HSave k meta) s))).
  { intros job meta ->.
    assert (Hhold : 0 < sum_list_with (holding (Result job)) (workers s)).
    { eapply sum_pos_elem; [by eapply list_elem_of_lookup_2|].
      rewrite holding_self. lia. }
    pose proof (inv_reader _ _ Hinv (Result job)) as Hr.
    destruct (sum_pos_lookup (receiving (Result job)) (handlers s))
      as (h & y & Hh & Hy); [lia|].
    apply receiving_pos in Hy as (k & ->).
    exists h, k. split; [done|]. by apply step_write. }
  assert (Hsel : x = WSelect → ∀ job rest draw, jobs s = job :: rest →
            ∃ s', step cap s (EvDequeue w job draw) s').
  { intros -> job rest draw Hq. eexists.
    eapply step_dequeue; [done | done | apply TransformStage_job_eq]. }
  split; [done|]. split; [done|].
  intros Hne Hq. destruct x as [|job meta|]; [| |done].
  - destruct (jobs s) as [|job rest] eqn:Hjobs; [done|].
    destruct (Hsel eq_refl job rest 0%Z eq_refl) as (s' & Hstep).
    by exists (EvDequeue w job 0%Z), s'.
  - destruct (Hsend job meta eq_refl) as (h & k & _ & Hstep).
    by eexists _, _.
Qed.

Lemma live_worker_can_step_witness :
  ∃ h k, handlers demo_state !! h = Some (HRecv k (Result demo_job))
         ∧ step jobs_capacity demo_state (EvWrite 0 h (Result demo_job) demo_meta)
             (set_worker 0 WSelect (set_handler h (HSave k demo_meta) demo_state)).
Proof.
  exact (proj1 (live_worker_can_step _ _ _ _ 0 _ demo_run eq_refl)
           demo_job demo_meta eq_refl).
Defined.

(** ** Result channels *)

Lemma enqueued_channels_NoDup tr :
  (∀ ch, sum_list_with (enqueue_of ch) tr ≤ 1) →
  NoDup (Result <$> enqueued_jobs tr).
Proof.
  induction tr as [|ev tr IH]; intros Hle; [constructor|].
  assert (Htl : ∀ ch, sum_list_with (enqueue_of ch) tr ≤ 1).
  { intros ch. specialize (Hle ch). rewrite sum_cons in Hle. lia. }
  specialize (IH Htl).
  destruct ev; try exact IH.
  change (NoDup (Result job :: (Result <$> enqueued_jobs tr))).
  constructor; [|exact IH].
  intros (job' & Hch & Hin)%list_elem_of_fmap.
  apply elem_of_enqueued_jobs in Hin as (h' & Hin).
  specialize (Hle (Result job)). rewrite sum_cons, enqueue_of_self in Hle.
  assert (0 < sum_list_with (enqueue_of (Result job)) tr); [|lia].
  eapply sum_pos_elem; [exact Hin|].
  rewrite Hch, enqueue_of_self. lia.
Qed.

(** X17. Every submission has a result channel of its own. In every run no
    two jobs sent on [jobs] share a result channel, and each such channel is
    one that a handler made. *)
Theorem result_channels_are_private cap n tr s :
  run cap (boot n) tr s →
  NoDup (Result <$> enqueued_jobs tr)
  ∧ Forall (fun job => Result job < chans s) (enqueued_jobs tr).
Proof.
  intros Hrun. pose proof (pipeline_inv_run _ _ _ _ Hrun) as Hinv. split.
  - apply enqueued_channels_NoDup. intros ch. by eapply enqueues_le_1.
  - apply Forall_forall. intros job (h & Hin)%elem_of_enqueued_jobs.
    assert (Hpos : 0 < sum_list_with (enqueue_of (Result job)) tr).
    { eapply sum_pos_elem; [exact Hin|]. rewrite enqueue_of_self. lia. }
    destruct Hinv as [Hp He Hd _ _ _].
    specialize (Hp (Result job)). specialize (He (Result job)).
    specialize (Hd (Result job)). unfold indicator in Hp.
    destruct (decide (Result job < chans s)); [done | lia].
Qed.

Lemma result_channels_are_private_witness :
  NoDup (Result <$> enqueued_jobs demo_trace)
  ∧ Forall (fun job => Result job < chans demo_state) (enqueued_jobs demo_trace).
Proof. exact (result_channels_are_private _ _ _ _ demo_run). Defined.

(** ** The digest and its text *)

Local Open Scope Z_scope.

Lemma put64_length x : length (sha256.put64 x) = 8%nat.
Proof. reflexivity. Qed.

Lemma pad_length data :
  Z.of_nat (length (sha256.pad data))
  = Z.of_nat (length data) + 9 + (55 - Z.of_nat (length data)) mod 64.
Proof.
  unfold sha256.pad. rewrite !length_app, put64_length. cbn [length].
  rewrite repeat_length.
  pose proof (Z.mod_pos_bound (55 - Z.of_nat (length data)) 64). lia.
Qed.

Lemma block_fuel fuel1 fuel2 h p :
  (length p ≤ fuel1)%nat → (length p ≤ fuel2)%nat →
  sha256.block fuel1 h p = sha256.block fuel2 h p.
Proof.
  revert fuel2 h p. induction fuel1 as [|fuel1 IH]; intros fuel2 h p H1 H2.
  - destruct p; [|cbn in H1; lia]. by destruct fuel2.
  - destruct fuel2 as [|fuel2].
    + destruct p; [done | cbn in H2; lia].
    + cbn [sha256.block].
      destruct (Nat.leb_spec sha256.chunk (length p)) as [Hge|Hlt]; [|done].
      unfold sha256.chunk in *.
      apply IH; rewrite length_drop; lia.
Qed.

(** X18. The message that [Sum256] hashes. The padded message starts with
    the data, is between 9 and 72 bytes longer, and is a whole number of
    64-byte blocks; the block loop runs through all of it, so giving it more
    steps than the message has bytes changes nothing. *)
Theorem padded_message_is_whole_blocks data :
  (length (sha256.pad data) mod 64 = 0)%nat
  ∧ (length data + 9 ≤ length (sha256.pad data) ≤ length data + 72)%nat
  ∧ take (length data) (sha256.pad data) = data
  ∧ (∀ fuel h, (length (sha256.pad data) ≤ fuel)%nat →
               sha256.block fuel h (sha256.pad data)
               = sha256.block (length (sha256.pad data)) h (sha256.pad data)).
Proof.
  pose proof (pad_length data) as Hlen.
  pose proof (Z.mod_pos_bound (55 - Z.of_nat (length data)) 64 ltac:(lia)) as Hb.
  pose proof (Z.div_mod (55 - Z.of_nat (length data)) 64 ltac:(lia)) as Hdm.
  split; [|split; [lia|split]].
  - apply Nat2Z.inj. rewrite Nat2Z.inj_mod, Hlen.
    replace (Z.of_nat (length data) + 9
             + (55 - Z.of_nat (length data)) mod 64)
      with ((1 - (55 - Z.of_nat (length data)) / 64) * 64) by lia.
    apply Z.mod_mul. lia.
  - unfold sha256.pad. by rewrite take_app_length.
  - intros fuel h Hfuel. by apply block_fuel.
Qed.

Lemma padded_message_is_whole_blocks_witness :
  sha256.block 100 sha256.init_state (sha256.pad hello)
  = sha256.block (length (sha256.pad hello)) sha256.init_state (sha256.pad hello).
Proof.
  apply (proj2 (proj2 (proj2 (padded_message_is_whole_blocks hello)))).
  vm_compute. lia.
Defined.

Lemma hex_byte_round_trip (x : byte) :
  unhex_digit (fmt.hexdigit (sha256.byteZ x / 16)) = Some (sha256.byteZ x / 16)
  ∧ unhex_digit (fmt.hexdigit (sha256.byteZ x mod 16))
    = Some (sha256.byteZ x mod 16)
  ∧ sha256.byte_of_Z (sha256.byteZ x / 16 * 16 + sha256.byteZ x mod 16) = x.
Proof. destruct x; vm_compute; done. Qed.

Lemma unhex_Sprintf_x b : unhex (fmt.Sprintf_x b) = Some b.
Proof.
  induction b as [|x b IH]; [done|].
  cbn [fmt.Sprintf_x unhex].
  destruct (hex_byte_round_trip x) as (-> & -> & Hx).
  cbn [mbind option_bind]. rewrite IH. cbn [mbind option_bind]. by rewrite Hx.
Qed.

(** X19. The checksum text can be read back. Decoding the hex text that
    [%x] writes for a byte sequence gives the sequence again, so different
    digests never get the same text; and the checksum of every metadata the
    stage produces decodes to the 32-byte SHA-256 digest of the payload. *)
Theorem checksum_decodes_to_digest :
  (∀ b, unhex (fmt.Sprintf_x b) = Some b)
  ∧ (∀ b1 b2, fmt.Sprintf_x b1 = fmt.Sprintf_x b2 → b1 = b2)
  ∧ (∀ draw job meta,
        TransformStage_job draw job = Some meta →
        unhex (Metadata.Checksum meta)
        = Some (sha256.Sum256 (AudioChunk.Data (Chunk job)))
        ∧ length (sha256.Sum256 (AudioChunk.Data (Chunk job))) = 32%nat).
Proof.
  split; [apply unhex_Sprintf_x|]. split.
  - intros b1 b2 Heq. apply (f_equal unhex) in Heq.
    rewrite !unhex_Sprintf_x in Heq. by injection Heq.
  - intros draw job meta Ht. rewrite TransformStage_job_eq in Ht.
    injection Ht as <-. cbn [Metadata.Checksum].
    split; [apply unhex_Sprintf_x | apply Sum256_length].
Qed.

Lemma checksum_decodes_to_digest_witness :
  unhex (Metadata.Checksum demo_meta)
  = Some (sha256.Sum256 (AudioChunk.Data (Chunk demo_job))).
Proof.
  apply (proj2 (proj2 checksum_decodes_to_digest) 7 demo_job demo_meta).
  vm_compute. reflexivity.
Defined.

Local Close Scope Z_scope.

(** ** The chunk of an upload *)

(** X20. Where an upload's identifiers come from. The submitter and the
    session of an upload are the first value of the query parameters
    user_id and session_id; a parameter that is absent, or present with no
    value, gives the empty string, and nothing rejects it: the metadata of
    such an upload is produced and carries the empty submitter. *)
Theorem upload_identifiers_default_empty r id now data :
  (∀ v vs, query r !! "user_id" = Some (v :: vs) →
           AudioChunk.UserID (handleUpload_chunk r id now data) = v)
  ∧ (query r !! "user_id" = None ∨ query r !! "user_id" = Some [] →
     AudioChunk.UserID (handleUpload_chunk r id now data) = ""
     ∧ ∀ draw ch, ∃ meta,
         TransformStage_job draw
           {| Chunk := handleUpload_chunk r id now data; Result := ch |}
         = Some meta
         ∧ Metadata.UserID meta = "")
  ∧ (∀ v vs, query r !! "session_id" = Some (v :: vs) →
             AudioChunk.SessionID (handleUpload_chunk r id now data) = v)
  ∧ (query r !! "session_id" = None ∨ query r !! "session_id" = Some [] →
     AudioChunk.SessionID (handleUpload_chunk r id now data) = "").
Proof.
  unfold handleUpload_chunk, Query_Get. cbn [AudioChunk.UserID AudioChunk.SessionID].
  split; [|split; [|split]].
  - by intros v vs ->.
  - intros Hq.
    assert (Hu : match query r !! "user_id" with
                 | Some (v :: _) => v
                 | _ => ""
                 end = "") by (by destruct Hq as [-> | ->]).
    split; [done|]. intros draw ch. eexists.
    split; [apply TransformStage_job_eq|].
    cbn [Metadata.UserID Chunk AudioChunk.UserID]. exact Hu.
  - by intros v vs ->.
  - by intros [-> | ->].
Qed.

Lemma upload_identifiers_default_empty_witness :
  AudioChunk.UserID
    (handleUpload_chunk {| query := ∅ |} "id-1" 17%Z hello) = ""
  ∧ AudioChunk.UserID (handleUpload_chunk alice_request "id-1" 17%Z hello)
    = "alice".
Proof.
  split.
  - apply (upload_identifiers_default_empty {| query := ∅ |} "id-1" 17%Z hello).
    left. reflexivity.
  - apply (proj1 (upload_identifiers_default_empty alice_request "id-1" 17%Z
                    hello) "alice" []).
    vm_compute. reflexivity.
Defined.

(** ** The echo server *)

(** X21. The echo server writes back, in order and with their message
    types, exactly the messages it read before the first failed read; it
    writes nothing for what comes after the failure, and nothing at all when
    the first read fails. *)
Theorem echo_until_first_error (msgs : list (Z * list byte))
  (later : list ReadResult) :
  wsHandler ((fun m => ReadOk m.1 m.2) <$> msgs) = msgs
  ∧ wsHandler (((fun m => ReadOk m.1 m.2) <$> msgs) ++ ReadErr :: later) = msgs
  ∧ wsHandler (ReadErr :: later) = []
  ∧ length (wsHandler later) ≤ length later.
Proof.
  split; [|split; [|split; [done|]]].
  - induction msgs as [|[t m] msgs IH]; [done|]. cbn. by rewrite IH.
  - induction msgs as [|[t m] msgs IH]; [done|]. cbn. by rewrite IH.
  - induction later as [|[t m|] later IH]; cbn; lia.
Qed.

(** ** Delivery in executions that go on for ever *)

Lemma events_upto_S ev k :
  events_upto ev (S k)
  = events_upto ev k ++ match ev k with Some e => [e] | None => [] end.
Proof.
  unfold events_upto. rewrite seq_S, omap_app. cbn. by destruct (ev k).
Qed.

Lemma elem_of_events_upto ev k e :
  e ∈ events_upto ev k ↔ ∃ j, j < k ∧ ev j = Some e.
Proof.
  unfold events_upto. rewrite list_elem_of_omap. split.
  - intros (j & Hj & He). apply elem_of_seq in Hj. exists j. split; [lia|done].
  - intros (j & Hj & He). exists j. split; [|done]. apply elem_of_seq. lia.
Qed.

Lemma execution_run cap n st ev k :
  execution cap n st ev → run cap (boot n) (events_upto ev k) (st k).
Proof.
  intros [Hboot Hnext]. induction k as [|k IH].
  - rewrite Hboot. apply run_nil.
  - rewrite events_upto_S. specialize (Hnext k). destruct (ev k) as [e|].
    + by eapply run_snoc.
    + by rewrite app_nil_r, Hnext.
Qed.

(** A worker at its send stays there until it completes the send. *)
Lemma holding_step cap s e s' w job meta :
  workers s !! w = Some (WSend job meta) → step cap s e s' →
  is_write_by w (Some e) = true ∨ workers s' !! w = Some (WSend job meta).
Proof.
  intros Hw Hstep.
  inversion Hstep; subst;
    try match goal with
      | H : submit _ _ _ = (SubmitOk, _) |- _ =>
          apply submit_ok_inv in H as [? ->]
      end;
    cbn [workers set_handler set_worker is_write_by]; try (by right).
  - right. rewrite list_lookup_insert_ne; [done | congruence].
  - right. rewrite list_lookup_insert_ne; [done | congruence].
  - destruct (decide (w0 = w)) as [->|Hne].
    + left. by apply bool_decide_eq_true.
    + right. by rewrite list_lookup_insert_ne.
Qed.

Lemma write_by_holder cap s e s' w job meta :
  workers s !! w = Some (WSend job meta) → step cap s e s' →
  is_write_by w (Some e) = true →
  ∃ h, e = EvWrite w h (Result job) meta.
Proof.
  intros Hw Hstep Hby. destruct e; try discriminate Hby.
  cbn in Hby. apply bool_decide_eq_true in Hby as ->.
  inversion Hstep; subst. exists h. congruence.
Qed.

Lemma holds_until_write cap n st ev a w job meta :
  execution cap n st ev →
  workers (st a) !! w = Some (WSend job meta) →
  ∀ k, (∀ j, a ≤ j < a + k → is_write_by w (ev j) = false) →
       workers (st (a + k)) !! w = Some (WSend job meta).
Proof.
  intros Hex Ha. induction k as [|k IH]; intros Hno.
  - by rewrite Nat.add_0_r.
  - rewrite Nat.add_succ_r.
    assert (Hk : workers (st (a + k)) !! w = Some (WSend job meta)).
    { apply IH. intros j Hj. apply Hno. lia. }
    pose proof (exec_next _ _ _ _ Hex (a + k)) as Hnext.
    specialize (Hno (a + k) ltac:(lia)).
    destruct (ev (a + k)) as [e|]; [|by rewrite Hnext].
    destruct (holding_step _ _ _ _ _ _ _ Hk Hnext) as [Hby|Hstay]; [|done].
    congruence.
Qed.

(** The first send of [w] from moment [a] on, among [k] moments. *)
Lemma first_write_from (ev : nat → option Event) w a k :
  (∀ j, a ≤ j < a + k → is_write_by w (ev j) = false)
  ∨ ∃ d, d < k ∧ is_write_by w (ev (a + d)) = true
         ∧ ∀ j, a ≤ j < a + d → is_write_by w (ev j) = false.
Proof.
  induction k as [|k [Hno|(d & Hd & Hw & Hbefore)]].
  - left. intros j Hj. lia.
  - destruct (is_write_by w (ev (a + k))) eqn:Hk.
    + right. exists k. split; [lia|]. split; [done|].
      intros j Hj. apply Hno. lia.
    + left. intros j Hj. destruct (decide (j = a + k)) as [->|]; [done|].
      apply Hno. lia.
  - right. exists d. split; [lia|]. by split.
Qed.

(** A worker at its send in a state of a run has its reader waiting. *)
Lemma holder_write_enabled cap n tr s w job meta :
  run cap (boot n) tr s →
  workers s !! w = Some (WSend job meta) →
  write_enabled cap s w.
Proof.
  intros Hrun Hw.
  pose proof (pipeline_inv_run _ _ _ _ Hrun) as Hinv.
  assert (Hhold : 0 < sum_list_with (holding (Result job)) (workers s)).
  { eapply sum_pos_elem; [by eapply list_elem_of_lookup_2|].
    rewrite holding_self. lia. }
  pose proof (inv_reader _ _ Hinv (Result job)) as Hr.
  destruct (sum_pos_lookup (receiving (Result job)) (handlers s))
    as (h & y & Hh & Hy); [lia|].
  apply receiving_pos in Hy as (k & ->).
  exists h, (Result job), meta. eexists. by eapply step_write.
Qed.

(** Two events that both count for [f] at different moments make the count
    two. *)
Lemma count_two_moments (f : Event → nat) ev j1 j2 e1 e2 :
  j1 < j2 → ev j1 = Some e1 → ev j2 = Some e2 → 0 < f e1 → 0 < f e2 →
  2 ≤ sum_list_with f (events_upto ev (S j2)).
Proof.
  intros Hlt H1 H2 Hf1 Hf2. rewrite events_upto_S, H2, sum_snoc.
  assert (0 < sum_list_with f (events_upto ev j2)); [|lia].
  eapply sum_pos_elem; [|exact Hf1].
  apply elem_of_events_upto. eauto.
Qed.

Lemma moment_unique (f : Event → nat) cap n st ev j1 j2 e1 e2 :
  execution cap n st ev →
  (∀ k, sum_list_with f (events_upto ev k) ≤ 1) →
  ev j1 = Some e1 → ev j2 = Some e2 → 0 < f e1 → 0 < f e2 → j1 = j2.
Proof.
  intros Hex Hle H1 H2 Hf1 Hf2.
  destruct (Nat.lt_trichotomy j1 j2) as [Hlt|[Heq|Hgt]]; [|done|].
  - pose proof (count_two_moments f ev j1 j2 e1 e2 Hlt H1 H2 Hf1 Hf2).
    specialize (Hle (S j2)). lia.
  - pose proof (count_two_moments f ev j2 j1 e2 e1 Hgt H2 H1 Hf2 Hf1).
    specialize (Hle (S j1)). lia.
Qed.

(** C3. In every execution of the pipeline in which the scheduler is fair to
    the send of worker [w], for every job that [w] dequeues at some moment
    [i]: at a later moment [j] the worker writes on the job's result channel
    the metadata computed from this job, and the handler that reads it is
    the one that had sent the job before; no other moment has a write on
    this channel, by any worker, to any handler, of any value; no other
    moment has a dequeue of a job with this channel; and every send of a
    job with this channel is by this handler, of this job. So exactly one
    value is written, by exactly one worker, exactly once, and the channel
    serves one job and one reader. *)
Theorem result_written_exactly_once cap n st ev i w job draw :
  execution cap n st ev →
  fair_send cap st ev w →
  ev i = Some (EvDequeue w job draw) →
  ∃ j h meta,
    i < j
    ∧ ev j = Some (EvWrite w h (Result job) meta)
    ∧ TransformStage_job draw job = Some meta
    ∧ (∃ i0, i0 < i ∧ ev i0 = Some (EvEnqueue h job))
    ∧ (∀ j' w' h' meta',
          ev j' = Some (EvWrite w' h' (Result job) meta') → j' = j)
    ∧ (∀ i' w' job' draw',
          ev i' = Some (EvDequeue w' job' draw') →
          Result job' = Result job → i' = i)
    ∧ (∀ i' h' job',
          ev i' = Some (EvEnqueue h' job') →
          Result job' = Result job → h' = h ∧ job' = job).
Proof.
  intros Hex Hfair Hi.
  assert (Hrun : ∀ k, run cap (boot n) (events_upto ev k) (st k))
    by (intros k; by apply execution_run).
  assert (Hinv : ∀ k, pipeline_inv (events_upto ev k) (st k))
    by (intros k; eapply pipeline_inv_run, Hrun).
  (* after the dequeue the worker holds the job *)
  pose proof (exec_next _ _ _ _ Hex i) as Hstep. rewrite Hi in Hstep.
  assert (Hheld : ∃ meta, workers (st (S i)) !! w = Some (WSend job meta)
                          ∧ TransformStage_job draw job = Some meta).
  { inversion Hstep; subst. exists meta. split; [|done]. cbn [workers].
    apply list_lookup_insert_eq. by eapply lookup_lt_Some. }
  destruct Hheld as (meta & Hheld & Ht).
  (* the job was in the queue, so some handler had sent it *)
  assert (Hsent : ∃ h0 i0, i0 < i ∧ ev i0 = Some (EvEnqueue h0 job)).
  { assert (Hq : job ∈ jobs (st i)).
    { inversion Hstep; subst.
      match goal with H : jobs _ = _ :: _ |- _ => rewrite H end. left. }
    assert (Hin : job ∈ enqueued_jobs (events_upto ev i)).
    { rewrite (run_fifo _ _ _ _ (Hrun i)). apply elem_of_app. by right. }
    apply elem_of_enqueued_jobs in Hin as (h0 & Hin).
    apply elem_of_events_upto in Hin as (i0 & Hlt & He). eauto. }
  destruct Hsent as (h0 & i0 & Hi0 & Hev0).
  (* fairness gives a moment where the send is disabled or taken *)
  destruct (Hfair (S i)) as (j1 & Hj1 & Hdisj).
  destruct (first_write_from ev w (S i) (S (j1 - S i)))
    as [Hno|(d & Hd & Hwd & Hbefore)].
  { (* no send of w up to j1: it still holds the job there, so the send is
       enabled at j1 and was taken at j1 *)
    exfalso.
    assert (Hj : workers (st j1) !! w = Some (WSend job meta)).
    { replace j1 with (S i + (j1 - S i)) by lia.
      eapply holds_until_write; [done | done |].
      intros j Hj. apply Hno. lia. }
    destruct Hdisj as [Hdis|Htaken].
    - apply Hdis. by eapply holder_write_enabled.
    - rewrite Hno in Htaken; [done | lia]. }
  set (j := S i + d) in *.
  assert (Hj : workers (st j) !! w = Some (WSend job meta))
    by (eapply holds_until_write; done).
  pose proof (exec_next _ _ _ _ Hex j) as Hstepj.
  destruct (ev j) as [e|] eqn:Hevj; [|discriminate Hwd].
  destruct (write_by_holder _ _ _ _ _ _ _ Hj Hstepj Hwd) as (h & ->).
  (* the reader is the handler that sent the job *)
  assert (Hwin : EvWrite w h (Result job) meta ∈ events_upto ev (S j)).
  { apply elem_of_events_upto. exists j. split; [lia | done]. }
  destruct (write_correlated _ _ _ _ _ _ _ _ (Hrun (S j)) Hwin)
    as (job' & draw' & Henq' & _ & Hch' & _).
  assert (Hin0 : EvEnqueue h0 job ∈ events_upto ev (S j)).
  { apply elem_of_events_upto. exists i0. split; [unfold j; lia | done]. }
  destruct (enqueue_unique _ _ _ _ _ _ (Hinv (S j)) Henq' Hin0 Hch')
    as [-> ->].
  exists j, h0, meta. split; [unfold j; lia|]. split; [done|].
  split; [done|]. split; [eauto|]. split; [|split].
  - intros j' w' h' meta' Hev'.
    eapply (moment_unique (write_of (Result job))); try done.
    + intros k. destruct (Hinv k) as [Hp _ Hdq _ _ _].
      specialize (Hp (Result job)).
      pose proof (indicator_le_1 (Result job < chans (st k))). lia.
    + rewrite write_of_self. lia.
    + rewrite write_of_self. lia.
  - intros i' w' job'' draw'' Hev' Hch.
    eapply (moment_unique (dequeue_of (Result job))); try done.
    + intros k. destruct (Hinv k) as [Hp _ Hdq _ _ _].
      specialize (Hp (Result job)). specialize (Hdq (Result job)).
      pose proof (indicator_le_1 (Result job < chans (st k))). lia.
    + rewrite <- Hch, dequeue_of_self. lia.
    + rewrite dequeue_of_self. lia.
  - intros i' h' job'' Hev' Hch.
    set (k := S (Nat.max i' i0)).
    assert (H1 : EvEnqueue h' job'' ∈ events_upto ev k).
    { apply elem_of_events_upto. exists i'. split; [unfold k; lia | done]. }
    assert (H2 : EvEnqueue h0 job ∈ events_upto ev k).
    { apply elem_of_events_upto. exists i0. split; [unfold k; lia | done]. }
    exact (enqueue_unique _ _ _ _ _ _ (Hinv k) H1 H2 Hch).
Qed.

Lemma upload_execution : execution jobs_capacity 1 upload_states upload_events.
Proof.
  split; [reflexivity|].
  intros [|[|[|[|[|i]]]]].
  - exact (step_upload _ (boot 1) alice_request "id-1" 17%Z hello).
  - apply (step_enqueue _ (upload_states 1) 0 Upload demo_job
             {| done := false; jobs := [demo_job]; workers := [WSelect];
                handlers := [HSend Upload demo_job]; store := NewMemoryStore;
                chans := 1 |}); reflexivity.
  - apply (step_dequeue _ (upload_states 2) 0 demo_job [] 7%Z demo_meta);
      [reflexivity | reflexivity | vm_compute; reflexivity].
  - apply (step_write _ demo_state 0 0 Upload demo_job demo_meta); reflexivity.
  - apply (step_respond _ (upload_states 4) 0 Upload demo_meta). reflexivity.
  - reflexivity.
Qed.

Lemma upload_fair : fair_send jobs_capacity upload_states upload_events 0.
Proof.
  intros i. exists (5 + i). split; [lia|]. left.
  intros (h & ch & meta & s' & Hstep).
  change (upload_states (5 + i)) with upload_state in Hstep.
  inversion Hstep; subst.
  match goal with H : workers upload_state !! 0 = Some _ |- _ =>
    discriminate H end.
Qed.

Lemma result_written_exactly_once_witness :
  ∃ j h meta,
    2 < j
    ∧ upload_events j = Some (EvWrite 0 h (Result demo_job) meta)
    ∧ TransformStage_job 7%Z demo_job = Some meta
    ∧ (∃ i0, i0 < 2 ∧ upload_events i0 = Some (EvEnqueue h demo_job))
    ∧ (∀ j' w' h' meta',
          upload_events j' = Some (EvWrite w' h' (Result demo_job) meta') →
          j' = j)
    ∧ (∀ i' w' job' draw',
          upload_events i' = Some (EvDequeue w' job' draw') →
          Result job' = Result demo_job → i' = 2)
    ∧ (∀ i' h' job',
          upload_events i' = Some (EvEnqueue h' job') →
          Result job' = Result demo_job → h' = h ∧ job' = demo_job).
Proof.
  exact (result_written_exactly_once jobs_capacity 1 upload_states upload_events
           2 0 demo_job 7%Z upload_execution upload_fair eq_refl).
Defined.
